(** * YouTube video summarizer: transcript acquisition and summary formatting

    A shallow embedding of the helper functions of [project.py]
    ([get_video_id], [get_transcript_youtube], [download_audio],
    [get_transcript_whisper], [get_transcript], [summarize_text]) together
    with the properties of the acquisition fallback and of the
    chunk / reformat pipeline.

    Python [str] values are sequences of Unicode code points, so a string is
    a [list N] here: [len], slicing and the chunk size all count code points.
    The external collaborators (the transcript API, yt_dlp, whisper, the
    transformers pipeline, [urllib.parse]) are parameters of the model,
    gathered in the record [Services]. *)

From Stdlib Require Import ZArith NArith Ascii String.
From stdpp Require Import base list gmap sets.

Set Default Proof Using "Type".
Local Open Scope N_scope.

(** ** Python strings *)

Module Py.

Abbreviation char := N (only parsing).
Abbreviation str := (list N) (only parsing).

(** An ASCII literal as a Python string. *)
Definition lit (s : string) : str :=
  List.map N_of_ascii (list_ascii_of_string s).

Definition DOT : char := 46.
Definition SPACE : char := 32.
Definition NEWLINE : char := 10.

(** [c.isspace()] for a single code point, the set used by [str.split()]
    and [str.strip()] without arguments. *)
Definition isspace (c : char) : bool :=
  ((9 <=? c) && (c <=? 13)) || ((28 <=? c) && (c <=? 32))
  || (c =? 133) || (c =? 160) || (c =? 5760)
  || ((8192 <=? c) && (c <=? 8202))
  || (c =? 8232) || (c =? 8233) || (c =? 8239) || (c =? 8287) || (c =? 12288).

(** The regex class [[A-Z]]. *)
Definition is_AZ (c : char) : bool := (65 <=? c) && (c <=? 90).

Definition is_dot (c : char) : bool := c =? DOT.

Fixpoint dropwhile (p : char -> bool) (s : str) : str :=
  match s with
  | [] => []
  | c :: s' => if p c then dropwhile p s' else s
  end.

Fixpoint takewhile (p : char -> bool) (s : str) : str :=
  match s with
  | [] => []
  | c :: s' => if p c then c :: takewhile p s' else []
  end.

Definition lstrip_by (p : char -> bool) (s : str) : str := dropwhile p s.
Definition rstrip_by (p : char -> bool) (s : str) : str :=
  rev (dropwhile p (rev s)).
Definition strip_by (p : char -> bool) (s : str) : str :=
  rstrip_by p (lstrip_by p s).

(** [s.strip()] *)
Definition strip (s : str) : str := strip_by isspace s.
(** [s.strip('.')] *)
Definition strip_dots (s : str) : str := strip_by is_dot s.

(** [s.split()]: maximal runs of non-whitespace, no empty strings.
    [cur] is the word being read, reversed. *)
Fixpoint split_from (cur : str) (s : str) : list str :=
  match s with
  | [] => match cur with [] => [] | _ => [rev cur] end
  | c :: s' =>
      if isspace c
      then match cur with
           | [] => split_from [] s'
           | _ => rev cur :: split_from [] s'
           end
      else split_from (c :: cur) s'
  end.

Definition split (s : str) : list str := split_from [] s.

(** [sep.join(parts)] *)
Fixpoint join (sep : str) (parts : list str) : str :=
  match parts with
  | [] => []
  | [p] => p
  | p :: ps => p ++ sep ++ join sep ps
  end.

(** [needle in hay] for strings. *)
Fixpoint starts_with (needle hay : str) : bool :=
  match needle, hay with
  | [], _ => true
  | _ :: _, [] => false
  | a :: n', b :: h' => (a =? b) && starts_with n' h'
  end.

Fixpoint contains (needle hay : str) : bool :=
  starts_with needle hay ||
  match hay with
  | [] => false
  | _ :: h' => contains needle h'
  end.

(** [s[i:j]] for [0 <= i <= j]. *)
Definition slice (s : str) (i j : nat) : str := take (j - i) (drop i s).

(** [range(0, n, step)] for [step > 0]: the multiples of [step] below [n]. *)
Definition range0 (n step : nat) : list nat :=
  List.map (fun q => (q * step)%nat) (seq 0 (Nat.div (n + step - 1) step)).

(** Truthiness of a string: [bool(s)]. *)
Definition truthy (s : str) : bool :=
  match s with [] => false | _ => true end.

(** [re.split(r'\. (?=[A-Z])', s)]: a match is a period and a space that
    stand before an upper-case ASCII letter; the two matched characters are
    dropped, the letter starts the next piece. [cur] is the piece being
    read, reversed. *)
Fixpoint re_split_from (cur : str) (s : str) : list str :=
  match s with
  | [] => [rev cur]
  | c :: s1 =>
      match s1 with
      | c1 :: ((c2 :: _) as s2) =>
          if is_dot c && (c1 =? SPACE) && is_AZ c2
          then rev cur :: re_split_from [] s2
          else re_split_from (c :: cur) s1
      | _ => re_split_from (c :: cur) s1
      end
  end.

Definition re_split_sentences (s : str) : list str := re_split_from [] s.

End Py.

Import Py.

Example split_demo :
  split (lit "  two  words ") = [lit "two"; lit "words"].
Proof. reflexivity. Qed.

Example re_split_demo :
  re_split_sentences (lit "Ab. Cd. ef. G") = [lit "Ab"; lit "Cd. ef"; lit "G"].
Proof. reflexivity. Qed.

Example range0_demo : range0 2500 1000 = [0; 1000; 2000]%nat.
Proof. reflexivity. Qed.

(** ** Exceptions, the world, and the effect monad *)

Inductive exn :=
| ValueError (msg : str)
| IndexError
| FileNotFoundError (path : str)
| ServiceError (name : str)  (* any other [Exception] a collaborator raises *)
| KeyboardInterrupt
| SystemExit.

(** [isinstance(e, Exception)]: what [except Exception] catches. *)
Definition is_Exception (e : exn) : bool :=
  match e with
  | KeyboardInterrupt | SystemExit => false
  | _ => true
  end.

Inductive result (A : Type) :=
| Ok (a : A)
| Raise (e : exn).
Arguments Ok {A} a.
Arguments Raise {A} e.

(** Calls into the collaborators, in the order they are made. *)
Inductive call :=
| CallTranscriptApi (video_id : str)
| CallDownloadAudio (url : str)
| CallWhisper (audio_path : str)
| CallRemove (path : str)
| CallPipeline
| CallSummarizer (chunks : list str).

(** What the functions can observe and change: the files on disk, the
    status strings handed to the [update_status] callback, the lines
    written by [print], the calls made so far, and the hidden state of the
    model runtime (random generator, caches). *)
Record World := mkWorld {
  fs : gset str;
  status : list str;
  stdout : list str;
  calls : list call;
  runtime : N
}.

Definition M (A : Type) : Type := World -> result A * World.

Definition ret {A} (a : A) : M A := fun w => (Ok a, w).
Definition raise {A} (e : exn) : M A := fun w => (Raise e, w).
Definition bind {A B} (m : M A) (k : A -> M B) : M B :=
  fun w => match m w with
           | (Ok a, w') => k a w'
           | (Raise e, w') => (Raise e, w')
           end.
Definition lift {A} (r : result A) : M A := fun w => (r, w).

Declare Scope py_scope.
Delimit Scope py_scope with py.
Notation "x <- m ;; k" := (bind m (fun x => k))
  (at level 100, m at next level, right associativity) : py_scope.
Notation "m ;;; k" := (bind m (fun _ => k))
  (at level 100, right associativity) : py_scope.
Local Open Scope py_scope.

(** [try: body except Exception as e: handler(e)] *)
Definition try_except {A} (body : M A) (handler : exn -> M A) : M A :=
  fun w => match body w with
           | (Ok a, w') => (Ok a, w')
           | (Raise e, w') =>
               if is_Exception e then handler e w' else (Raise e, w')
           end.

Definition record_call (c : call) : M unit :=
  fun w => (Ok tt, mkWorld (fs w) (status w) (stdout w) (calls w ++ [c]) (runtime w)).

(** The status callback the properties are stated for: it records the
    message it is handed, at once. *)
Definition record_status (msg : str) : M unit :=
  fun w => (Ok tt, mkWorld (fs w) (status w ++ [msg]) (stdout w) (calls w) (runtime w)).

Definition print (line : str) : M unit :=
  fun w => (Ok tt, mkWorld (fs w) (status w) (stdout w ++ [line]) (calls w) (runtime w)).

(** [os.remove(path)] *)
Definition os_remove (path : str) : M unit :=
  fun w =>
    let called := calls w ++ [CallRemove path] in
    if decide (path ∈ fs w)
    then (Ok tt, mkWorld (fs w ∖ {[path]}) (status w) (stdout w) called (runtime w))
    else (Raise (FileNotFoundError path),
          mkWorld (fs w) (status w) (stdout w) called (runtime w)).

(** ** The collaborators *)

(** [urlparse(url)]: the two components the code reads. *)
Record ParseResult := mkParse { netloc : str; path : str; query : str }.

(** One entry of the list the transcript API returns. *)
Record Segment := mkSegment { text : str; start : Z; duration : Z }.

Record Services := mkServices {
  (** [urllib.parse.urlparse]; raises [ValueError] on some inputs. *)
  urlparse : str -> result ParseResult;
  (** [urllib.parse.parse_qs]: parameter name to its values. *)
  parse_qs : str -> gmap str (list str);
  (** [YouTubeTranscriptApi.get_transcript(video_id)] *)
  transcript_api : str -> result (list Segment);
  (** [str(e)] for the error line the fetcher prints. *)
  exn_message : exn -> str;
  (** [ydl.download([url])] under the options of [download_audio]. *)
  ydl_download : str -> gset str -> result unit * gset str;
  (** [whisper.load_model("base").transcribe(path)["text"]] *)
  whisper_transcribe : str -> gset str -> result str;
  (** [pipeline("summarization", ...)]: loading the model may fail. *)
  pipeline_load : result unit;
  (** [summarizer(chunks, max_length=130, min_length=30, do_sample=False)]
      and the [summary_text] of each entry; reads and updates the runtime
      state. *)
  summarizer : list str -> N -> result (list str) * N
}.

(** ** The program *)

(** Status messages and output fragments, as the source spells them. *)
Definition MSG_API : str :=
  [0x2714; 0xFE0F] ++ lit " Transcript from YouTube API.".
Definition MSG_FALLBACK : str :=
  [0x26A0; 0xFE0F] ++ lit " YouTube transcript unavailable. Using Whisper...".
Definition MSG_WHISPER : str :=
  [0x2714; 0xFE0F] ++ lit " Transcript generated using Whisper.".
Definition MSG_SUMMARIZING : str :=
  [0x1F9E0] ++ lit " Summarizing with Hugging Face model...".
Definition MSG_FORMATTING : str :=
  [0x1F4DA] ++ lit " Formatting summary...".
Definition MSG_COMPLETE : str :=
  [0x2714; 0xFE0F] ++ lit " Summary complete.".

Definition current_heading : str := [0x1F539] ++ lit " Key Points".
Definition HEADING_LINE : str := current_heading ++ lit ":" ++ [NEWLINE].
Definition BULLET : char := 0x2022.
Definition AUDIO_PATH : str := lit "audio.mp3".
Definition DEFAULT_MAX_CHUNK : Z := 1000.

(** [[text[i:i+max_chunk] for i in range(0, len(text), max_chunk)]].
    [range] raises on a zero step and is empty on a negative one. *)
Definition chunks_of (text : str) (max_chunk : Z) : result (list str) :=
  if (max_chunk =? 0)%Z
  then Raise (ValueError (lit "range() arg 3 must not be zero"))
  else if (max_chunk <? 0)%Z then Ok []
  else
    let k := Z.to_nat max_chunk in
    Ok (List.map (fun i => slice text i (i + k)) (range0 (length text) k)).

(** The bullet written for a line that passed the filter:
    [f"• {line.strip('.')}.\n"]. *)
Definition render_bullet (line : str) : str :=
  [BULLET; SPACE] ++ strip_dots line ++ [DOT; NEWLINE].

(** One turn of the loop over [sections]. *)
Definition format_step (bullet_summary : str) (section : str) : str :=
  let line := strip section in
  if negb (truthy line) then bullet_summary
  else if (7 <? length (split line))%nat
       then bullet_summary ++ render_bullet line
       else bullet_summary.

(** Lines 82 to 93 of [summarize_text]: from [full_summary] to
    [bullet_summary]. *)
Definition format_summary (full_summary : str) : str :=
  fold_left format_step (re_split_sentences full_summary) HEADING_LINE.

Section Program.

Context (svc : Services).

(** Lines 21 to 27. [.get("v", [None])[0]] is the first value of [v], or
    [None] without one. *)
Definition get_video_id (url : str) : result (option str) :=
  match urlparse svc url with
  | Raise e => Raise e
  | Ok parsed =>
      if contains (lit "youtu.be") (netloc parsed)
      then Ok (Some (drop 1 (path parsed)))
      else if contains (lit "youtube.com") (netloc parsed)
      then match parse_qs svc (query parsed) !! lit "v" with
           | None => Ok None
           | Some [] => Raise IndexError
           | Some (v :: _) => Ok (Some v)
           end
      else Ok None
  end.

(** Lines 29 to 38. [not video_id] holds for [None] and for the empty
    string. *)
Definition get_transcript_youtube (url : str) : M (option str) :=
  video_id <- lift (get_video_id url) ;;
  match video_id with
  | None | Some [] => raise (ValueError (lit "Invalid YouTube URL"))
  | Some vid =>
      try_except
        (record_call (CallTranscriptApi vid) ;;;
         transcript <- lift (transcript_api svc vid) ;;
         ret (Some (join (lit " ") (List.map text transcript))))
        (fun e =>
           print (lit "[YouTube Transcript Error] " ++ exn_message svc e) ;;;
           ret None)
  end.

(** Lines 40 to 53. *)
Definition download_audio (url : str) : M str :=
  record_call (CallDownloadAudio url) ;;;
  (fun w =>
     let (r, fs') := ydl_download svc url (fs w) in
     (r, mkWorld fs' (status w) (stdout w) (calls w) (runtime w))) ;;;
  ret AUDIO_PATH.

(** Lines 55 to 58. *)
Definition get_transcript_whisper (audio_path : str) : M str :=
  record_call (CallWhisper audio_path) ;;;
  (fun w => (whisper_transcribe svc audio_path (fs w), w)).

(** Lines 60 to 71. [if transcript:] holds for a non-empty string only. *)
Definition get_transcript (url : str) (update_status : str -> M unit) : M str :=
  transcript <- get_transcript_youtube url ;;
  match transcript with
  | Some ((_ :: _) as t) =>
      update_status MSG_API ;;;
      ret t
  | _ =>
      update_status MSG_FALLBACK ;;;
      audio_path <- download_audio url ;;
      transcript <- get_transcript_whisper audio_path ;;
      os_remove audio_path ;;;
      update_status MSG_WHISPER ;;;
      ret transcript
  end.

(** Line 77 and the comprehension of line 78. *)
Definition run_summarizer (chunks : list str) : M (list str) :=
  record_call (CallSummarizer chunks) ;;;
  (fun w =>
     let (r, rt') := summarizer svc chunks (runtime w) in
     (r, mkWorld (fs w) (status w) (stdout w) (calls w) rt')).

(** Lines 73 to 96; the callers pass [DEFAULT_MAX_CHUNK]. *)
Definition summarize_text (text : str) (update_status : str -> M unit)
    (max_chunk : Z) : M str :=
  update_status MSG_SUMMARIZING ;;;
  record_call CallPipeline ;;;
  lift (pipeline_load svc) ;;;
  chunks <- lift (chunks_of text max_chunk) ;;
  summaries <- run_summarizer chunks ;;
  let full_summary := join (lit " ") summaries in
  update_status MSG_FORMATTING ;;;
  let bullet_summary := format_summary full_summary in
  update_status MSG_COMPLETE ;;;
  ret bullet_summary.

End Program.

(** ** A concrete environment

    Collaborators to run the program on examples. The URL functions stand
    in for [urllib.parse] on URLs of the shape
    [scheme://netloc/path?query#fragment] and on query strings [k=v&k=v]
    without percent-escapes; the services are scripted by a few flags. *)

Module Demo.

(** Split at the first character satisfying [p]: the part before it and
    the rest from it on. *)
Fixpoint break_at (p : char -> bool) (s : str) : str * str :=
  match s with
  | [] => ([], [])
  | c :: s' =>
      if p c then ([], s)
      else let (a, b) := break_at p s' in (c :: a, b)
  end.

Fixpoint after_marker (marker : str) (s : str) : option str :=
  if starts_with marker s then Some (drop (length marker) s)
  else match s with
       | [] => None
       | _ :: s' => after_marker marker s'
       end.

Definition is_one_of (cs : str) (c : char) : bool :=
  existsb (N.eqb c) cs.

Definition split_url (url : str) : result ParseResult :=
  let rest := default url (after_marker (lit "://") url) in
  let has_netloc := bool_decide (is_Some (after_marker (lit "://") url)) in
  let (nl, r1) := if has_netloc then break_at (is_one_of (lit "/?#")) rest
                  else ([], rest) in
  let (p, r2) := break_at (is_one_of (lit "?#")) r1 in
  let (q, _) := break_at (is_one_of (lit "#")) (drop 1 r2) in
  let q := if starts_with (lit "?") r2 then q else [] in
  Ok (mkParse nl p q).

(** Pieces of [s] between occurrences of the character [sep]. *)
Fixpoint pieces (sep : char) (cur : str) (s : str) : list str :=
  match s with
  | [] => [rev cur]
  | c :: s' =>
      if c =? sep then rev cur :: pieces sep [] s'
      else pieces sep (c :: cur) s'
  end.

Definition add_pair (m : gmap str (list str)) (kv : str) : gmap str (list str) :=
  let (k, v) := break_at (is_one_of (lit "=")) kv in
  match drop 1 v with
  | [] => m
  | value => <[k := default [] (m !! k) ++ [value]]> m
  end.

Definition split_query (qs : str) : gmap str (list str) :=
  fold_left add_pair (pieces 38 [] qs) ∅.

(** The run of the services: does the API answer, and with what; does the
    download succeed, and does it leave the file; does whisper answer. *)
Record Script := mkScript {
  api_answer : result (list Segment);
  download_ok : bool;
  download_writes : bool;
  whisper_answer : result str;
  summaries : list str -> list str
}.

Definition services (sc : Script) : Services :=
  {| urlparse := split_url;
     parse_qs := split_query;
     transcript_api := fun _ => api_answer sc;
     exn_message := fun _ => lit "error";
     ydl_download := fun _ files =>
       (if download_ok sc then Ok tt else Raise (ServiceError (lit "DownloadError")),
        if download_writes sc then files ∪ {[AUDIO_PATH]} else files);
     whisper_transcribe := fun _ _ => whisper_answer sc;
     pipeline_load := Ok tt;
     summarizer := fun chunks rt => (Ok (summaries sc chunks), rt) |}.

Definition empty_world : World := mkWorld ∅ [] [] [] 0.

End Demo.

(** ** Facts about the string primitives *)

Section StringFacts.

Implicit Types (s t : str) (p : char -> bool).

Lemma takewhile_dropwhile p s : takewhile p s ++ dropwhile p s = s.
Proof.
  induction s as [|c s IH]; simpl; [done|].
  destruct (p c); simpl; [by rewrite IH | done].
Qed.

Lemma takewhile_all p s : forallb p (takewhile p s) = true.
Proof.
  induction s as [|c s IH]; simpl; [done|].
  destruct (p c) eqn:E; simpl; [by rewrite E | done].
Qed.

Lemma forallb_reverse p s : forallb p (rev s) = forallb p s.
Proof.
  induction s as [|c s IH]; simpl; [done|].
  rewrite forallb_app, IH. simpl. rewrite andb_true_r. apply andb_comm.
Qed.

(** A stripped string with the characters removed on both sides. *)
Lemma strip_by_decompose p s :
  exists l r,
    forallb p l = true /\ forallb p r = true /\ s = l ++ strip_by p s ++ r.
Proof.
  exists (takewhile p s), (rev (takewhile p (rev (dropwhile p s)))).
  split; [apply takewhile_all|]. split.
  - rewrite forallb_reverse. apply takewhile_all.
  - unfold strip_by, rstrip_by, lstrip_by.
    rewrite <- rev_app_distr, takewhile_dropwhile, rev_involutive.
    by rewrite takewhile_dropwhile.
Qed.

(** The number of words [split] finds, with [inword] telling whether a
    word is being read. *)
Fixpoint count_words (inword : bool) (s : str) : nat :=
  match s with
  | [] => if inword then 1 else 0
  | c :: s' =>
      if isspace c
      then (if inword then 1 else 0) + count_words false s'
      else count_words true s'
  end.

Lemma split_from_length (cur : str) s :
  length (split_from cur s) = count_words (truthy cur) s.
Proof.
  revert cur. induction s as [|c s IH]; intros cur; simpl.
  - by destruct cur.
  - destruct (isspace c).
    + destruct cur; simpl; by rewrite IH.
    + by rewrite IH.
Qed.

Lemma split_length s : length (split s) = count_words false s.
Proof. apply split_from_length. Qed.

Lemma count_words_false_true s :
  (count_words false s <= count_words true s)%nat.
Proof. destruct s as [|c s]; simpl; [lia|]. destruct (isspace c); lia. Qed.

Lemma count_words_true_false s :
  (count_words true s <= S (count_words false s))%nat.
Proof. destruct s as [|c s]; simpl; [lia|]. destruct (isspace c); lia. Qed.

Lemma count_words_app_mono (b : bool) s t t' :
  (forall b', (count_words b' t <= count_words b' t')%nat) ->
  (count_words b (s ++ t) <= count_words b (s ++ t'))%nat.
Proof.
  intros H. revert b. induction s as [|c s IH]; intros b; simpl; [apply H|].
  destruct (isspace c); [|apply IH].
  specialize (IH false). lia.
Qed.

Lemma is_dot_not_space c : is_dot c = true -> isspace c = false.
Proof.
  unfold is_dot, DOT. intros H%N.eqb_eq. by subst.
Qed.

Lemma count_words_dots (b : bool) (ds : str) s :
  forallb is_dot ds = true ->
  count_words b (ds ++ s) = count_words (b || truthy ds) s.
Proof.
  revert b. induction ds as [|d ds IH]; intros b H; simpl.
  - by rewrite orb_false_r.
  - simpl in H. apply andb_true_iff in H as [Hd Hds].
    rewrite (is_dot_not_space _ Hd), (IH _ Hds). simpl.
    by rewrite orb_true_r.
Qed.

End StringFacts.

(** ** The reformatting stage *)

(** The test a candidate line has to pass to become a bullet. *)
Definition keeps (line : str) : bool :=
  truthy line && (7 <? length (split line))%nat.

(** The candidate lines of a summary, and those that survive. *)
Definition candidate_lines (full_summary : str) : list str :=
  List.map strip (re_split_sentences full_summary).
Definition surviving_lines (full_summary : str) : list str :=
  List.filter keeps (candidate_lines full_summary).

(** The bullets of a summary, one per surviving line. *)
Definition bullets (full_summary : str) : list str :=
  List.map render_bullet (surviving_lines full_summary).

Section Formatting.

Lemma format_step_keeps (acc section : str) :
  format_step acc section =
  if keeps (strip section) then acc ++ render_bullet (strip section) else acc.
Proof.
  unfold format_step, keeps. by destruct (truthy (strip section)).
Qed.

Lemma fold_format_step (sections : list str) (acc : str) :
  fold_left format_step sections acc =
  acc ++ concat (List.map render_bullet (List.filter keeps (List.map strip sections))).
Proof.
  revert acc. induction sections as [|x xs IH]; intros acc; simpl.
  - by rewrite app_nil_r.
  - rewrite IH, format_step_keeps.
    destruct (keeps (strip x)); simpl; [by rewrite <- app_assoc | done].
Qed.

Lemma format_summary_bullets (full_summary : str) :
  format_summary full_summary = HEADING_LINE ++ concat (bullets full_summary).
Proof. apply fold_format_step. Qed.

(** Stripping the periods and writing the bullet never loses a word. *)
Lemma render_bullet_words (line : str) :
  (length (split line) <= length (split (render_bullet line)))%nat.
Proof.
  rewrite !split_length. unfold render_bullet, strip_dots.
  destruct (strip_by_decompose is_dot line) as (l & r & Hl & Hr & Heq).
  set (core := strip_by is_dot line) in *.
  rewrite Heq at 1. rewrite (count_words_dots _ _ _ Hl). simpl.
  assert (Hmid : (count_words false (core ++ r)
                  <= count_words false (core ++ [DOT; NEWLINE]))%nat).
  { apply count_words_app_mono. intros b'.
    rewrite <- (app_nil_r r), (count_words_dots _ _ _ Hr). simpl.
    destruct (b' || truthy r); lia. }
  pose proof (count_words_true_false (core ++ r)) as Ht.
  pose proof (count_words_false_true (core ++ r)) as Hf.
  destruct (truthy l); simpl; lia.
Qed.

Lemma bullet_of_survivor (line : str) :
  keeps line = true -> (7 < length (split (render_bullet line)))%nat.
Proof.
  unfold keeps. intros [_ H%Nat.ltb_lt]%andb_true_iff.
  pose proof (render_bullet_words line). lia.
Qed.

End Formatting.

(** ** Chunking *)

Section Chunking.

Implicit Types (text : str) (k m : nat).

Lemma slice_take_drop text i k : slice text i (i + k) = take k (drop i text).
Proof. unfold slice. f_equal. lia. Qed.

Lemma concat_slices text k m :
  concat (List.map (fun i => slice text i (i + k))
                   (List.map (fun q => (q * k)%nat) (seq 0 m)))
  = take (m * k) text.
Proof.
  induction m as [|m IH]; [done|].
  rewrite seq_S, !List.map_app, concat_app, IH. simpl.
  rewrite app_nil_r, slice_take_drop, take_take_drop. f_equal. lia.
Qed.

Lemma range0_covers n k : (0 < k)%nat -> (n <= (n + k - 1) / k * k)%nat.
Proof.
  intros Hk.
  pose proof (Nat.div_mod_eq (n + k - 1) k) as E.
  pose proof (Nat.mod_upper_bound (n + k - 1) k) as U.
  nia.
Qed.

Lemma range0_short n k : (0 < n < k)%nat -> range0 n k = [0%nat].
Proof.
  intros H. unfold range0.
  replace ((n + k - 1) / k)%nat with 1%nat; [done|].
  apply (Nat.div_unique _ _ _ (n - 1)); lia.
Qed.

Lemma range0_empty k : (0 < k)%nat -> range0 0 k = [].
Proof.
  intros H. unfold range0. simpl.
  rewrite Nat.div_small by lia. done.
Qed.

Lemma chunks_of_positive text (max_chunk : Z) :
  (0 < max_chunk)%Z ->
  chunks_of text max_chunk =
  Ok (List.map (fun i => slice text i (i + Z.to_nat max_chunk))
               (range0 (length text) (Z.to_nat max_chunk))).
Proof.
  intros H. unfold chunks_of.
  destruct (Z.eqb_spec max_chunk 0); [lia|].
  destruct (Z.ltb_spec max_chunk 0); [lia|]. done.
Qed.

Lemma chunks_concat text (max_chunk : Z) cs :
  chunks_of text max_chunk = Ok cs -> (0 < max_chunk)%Z -> concat cs = text.
Proof.
  intros E H. rewrite chunks_of_positive in E by done.
  injection E as <-. unfold range0. rewrite concat_slices.
  apply take_ge, range0_covers. lia.
Qed.

Lemma chunks_bounded text (max_chunk : Z) cs :
  chunks_of text max_chunk = Ok cs -> (0 < max_chunk)%Z ->
  Forall (fun c => (0 < length c <= Z.to_nat max_chunk)%nat) cs.
Proof.
  intros E H. rewrite chunks_of_positive in E by done.
  injection E as <-. apply Forall_forall. intros c Hc.
  apply list_elem_of_In, in_map_iff in Hc as (i & <- & Hi).
  unfold range0 in Hi. apply in_map_iff in Hi as (q & <- & Hq).
  apply in_seq in Hq. rewrite slice_take_drop, length_take, length_drop.
  assert (q * Z.to_nat max_chunk < length text)%nat; [|lia].
  set (k := Z.to_nat max_chunk) in *.
  assert (Hk : (0 < k)%nat) by (unfold k; lia).
  pose proof (Nat.div_mod_eq (length text + k - 1) k) as Ed.
  pose proof (Nat.mod_upper_bound (length text + k - 1) k) as U.
  nia.
Qed.

End Chunking.

(** ** Running the acquisition functions *)

Section Acquisition.

Context (svc : Services).

Implicit Types (url vid : str) (w : World).

(** What the fetcher does once the identifier is known. *)
Definition fetch_outcome vid w : result (option str) * World :=
  let w1 := mkWorld (fs w) (status w) (stdout w)
                    (calls w ++ [CallTranscriptApi vid]) (runtime w) in
  match transcript_api svc vid with
  | Ok segments => (Ok (Some (join (lit " ") (List.map text segments))), w1)
  | Raise e =>
      if is_Exception e
      then (Ok None,
            mkWorld (fs w1) (status w1)
                    (stdout w1 ++ [lit "[YouTube Transcript Error] " ++ exn_message svc e])
                    (calls w1) (runtime w1))
      else (Raise e, w1)
  end.

Lemma get_transcript_youtube_cases url w :
  get_transcript_youtube svc url w =
  match get_video_id svc url with
  | Raise e => (Raise e, w)
  | Ok None | Ok (Some []) => (Raise (ValueError (lit "Invalid YouTube URL")), w)
  | Ok (Some vid) => fetch_outcome vid w
  end.
Proof.
  unfold get_transcript_youtube, fetch_outcome, bind, lift, raise.
  destruct (get_video_id svc url) as [[[|c vid]|]|e]; try done.
  unfold try_except, record_call, ret, print. simpl.
  destruct (transcript_api svc (c :: vid)) as [segments|e]; [done|].
  by destruct (is_Exception e).
Qed.

(** The fetcher leaves the files and the status messages alone, and calls
    nothing but the transcript API, at most once. *)
Lemma get_transcript_youtube_frame url w r w1 :
  get_transcript_youtube svc url w = (r, w1) ->
  fs w1 = fs w /\ status w1 = status w /\ runtime w1 = runtime w /\
  (calls w1 = calls w \/ exists vid, calls w1 = calls w ++ [CallTranscriptApi vid]).
Proof.
  rewrite get_transcript_youtube_cases. unfold fetch_outcome.
  destruct (get_video_id svc url) as [[[|c vid]|]|e];
    try (intros [= <- <-]; by auto).
  destruct (transcript_api svc (c :: vid)) as [segments|e];
    [|destruct (is_Exception e)];
    intros [= <- <-]; simpl; eauto 10.
Qed.

(** The local path, lines 66 to 71 of [get_transcript], from the world
    [w] the fetcher left. *)
Definition fallback_outcome url w : result str * World :=
  let called := calls w ++ [CallDownloadAudio url] in
  let told := status w ++ [MSG_FALLBACK] in
  match ydl_download svc url (fs w) with
  | (Raise e, files) =>
      (Raise e, mkWorld files told (stdout w) called (runtime w))
  | (Ok _, files) =>
      let called := called ++ [CallWhisper AUDIO_PATH] in
      match whisper_transcribe svc AUDIO_PATH files with
      | Raise e => (Raise e, mkWorld files told (stdout w) called (runtime w))
      | Ok transcript =>
          let called := called ++ [CallRemove AUDIO_PATH] in
          if decide (AUDIO_PATH ∈ files)
          then (Ok transcript,
                mkWorld (files ∖ {[AUDIO_PATH]}) (told ++ [MSG_WHISPER])
                        (stdout w) called (runtime w))
          else (Raise (FileNotFoundError AUDIO_PATH),
                mkWorld files told (stdout w) called (runtime w))
      end
  end.

Lemma get_transcript_cases url w :
  get_transcript svc url record_status w =
  match get_transcript_youtube svc url w with
  | (Raise e, w1) => (Raise e, w1)
  | (Ok (Some (c :: t)), w1) =>
      (Ok (c :: t),
       mkWorld (fs w1) (status w1 ++ [MSG_API]) (stdout w1) (calls w1) (runtime w1))
  | (Ok _, w1) => fallback_outcome url w1
  end.
Proof.
  unfold get_transcript, bind at 1.
  destruct (get_transcript_youtube svc url w) as [[[[|c t]|]|e] w1]; try done.
  all: unfold fallback_outcome, record_status, download_audio,
         get_transcript_whisper, record_call, os_remove, ret, bind; simpl.
  all: destruct (ydl_download svc url (fs w1)) as [[[]|e] files]; simpl; try done.
  all: destruct (whisper_transcribe svc AUDIO_PATH files) as [tr|e']; simpl; try done.
  all: by destruct (decide (AUDIO_PATH ∈ files)).
Qed.

End Acquisition.

(** ** Running the summarizer *)

Section Summarizing.

Context (svc : Services).

Implicit Types (text : str) (w : World).

Definition summarize_outcome text (max_chunk : Z) w : result str * World :=
  let told := status w ++ [MSG_SUMMARIZING] in
  let loaded := mkWorld (fs w) told (stdout w) (calls w ++ [CallPipeline]) (runtime w) in
  match pipeline_load svc with
  | Raise e => (Raise e, loaded)
  | Ok _ =>
      match chunks_of text max_chunk with
      | Raise e => (Raise e, loaded)
      | Ok chunks =>
          let called := calls w ++ [CallPipeline; CallSummarizer chunks] in
          match summarizer svc chunks (runtime w) with
          | (Raise e, rt) => (Raise e, mkWorld (fs w) told (stdout w) called rt)
          | (Ok summaries, rt) =>
              (Ok (format_summary (join (lit " ") summaries)),
               mkWorld (fs w) (told ++ [MSG_FORMATTING; MSG_COMPLETE])
                       (stdout w) called rt)
          end
      end
  end.

Lemma summarize_text_cases text (max_chunk : Z) w :
  summarize_text svc text record_status max_chunk w =
  summarize_outcome text max_chunk w.
Proof.
  unfold summarize_text, summarize_outcome, run_summarizer, record_status,
    record_call, lift, ret, bind; simpl.
  destruct (pipeline_load svc) as [[]|e]; [|done].
  destruct (chunks_of text max_chunk) as [chunks|e]; [|done]. simpl.
  destruct (summarizer svc chunks (runtime w)) as [[summaries|e] rt]; simpl.
  - by rewrite <- !app_assoc.
  - by rewrite <- !app_assoc.
Qed.

End Summarizing.

(** ** Scenarios *)

Module Scenario.

Import Demo.

Definition short_url : str := lit "https://youtu.be/dQw4w9WgXcQ".
Definition long_url : str := lit "https://www.youtube.com/watch?v=dQw4w9WgXcQ&x=1".
Definition no_v_url : str := lit "https://www.youtube.com/watch?x=1".
Definition other_url : str := lit "https://example.com/dQw4w9WgXcQ".

Definition no_captions : result (list Segment) :=
  Raise (ServiceError (lit "TranscriptsDisabled")).

(** The API answers with two segments. *)
Definition captioned : Script :=
  mkScript (Ok [mkSegment (lit "hello") 0 1500; mkSegment (lit "world") 1500 900])
           true true (Ok (lit "spoken words")) (fun chunks => chunks).

(** The API answers, but the only segment has no text. *)
Definition silent_captions : Script :=
  mkScript (Ok [mkSegment [] 0 1500])
           true true (Ok (lit "spoken words")) (fun chunks => chunks).

(** No captions; download and transcription work. *)
Definition local_only : Script :=
  mkScript no_captions true true (Ok (lit "spoken words")) (fun chunks => chunks).

(** No captions; the audio is downloaded, then whisper fails. *)
Definition whisper_fails : Script :=
  mkScript no_captions true true (Raise (ServiceError (lit "RuntimeError")))
           (fun chunks => chunks).

(** No captions; the download fails after the file was written. *)
Definition download_fails : Script :=
  mkScript no_captions false true (Ok (lit "spoken words")) (fun chunks => chunks).

End Scenario.

(** ** Properties of transcript acquisition *)

Section AcquisitionClaims.

Import Demo Scenario.

Implicit Types (svc : Services) (url t : str) (w : World).

Lemma fetch_outcome_calls svc vid w r w1 :
  fetch_outcome svc vid w = (r, w1) ->
  calls w1 = calls w ++ [CallTranscriptApi vid].
Proof.
  unfold fetch_outcome.
  destruct (transcript_api svc vid) as [segments|e];
    [|destruct (is_Exception e)]; by intros [= <- <-].
Qed.

Lemma fetched_text_calls svc url w t w1 :
  get_transcript_youtube svc url w = (Ok (Some t), w1) ->
  exists vid, calls w1 = calls w ++ [CallTranscriptApi vid].
Proof.
  rewrite get_transcript_youtube_cases.
  destruct (get_video_id svc url) as [[[|c vid]|]|e]; try done.
  intros H. exists (c :: vid). by eapply fetch_outcome_calls.
Qed.

(** C1, on the failing input: the remote transcript is unavailable, the
    audio file is downloaded, and the local transcription raises. The call
    raises the transcription error and [audio.mp3] is still on disk: the
    file is removed only on the path where transcription succeeded. *)
Theorem temp_file_left_after_failed_transcription :
  let '(r, w') :=
    get_transcript (services whisper_fails) short_url record_status empty_world in
  r = Raise (ServiceError (lit "RuntimeError")) /\
  elements (fs w') = [AUDIO_PATH] /\
  calls w' = [CallTranscriptApi (lit "dQw4w9WgXcQ");
              CallDownloadAudio short_url;
              CallWhisper AUDIO_PATH].
Proof. vm_compute. done. Qed.

(** The same with a download that raises after writing the file. *)
Example temp_file_left_after_failed_download :
  let '(r, w') :=
    get_transcript (services download_fails) short_url record_status empty_world in
  r = Raise (ServiceError (lit "DownloadError")) /\
  elements (fs w') = [AUDIO_PATH].
Proof. vm_compute. done. Qed.

(** In general: whenever the local path downloads the file and the
    transcription raises, the call raises that exception with the file
    still there. *)
Lemma temp_file_left_when_transcription_raises svc url w r w1 files e :
  get_transcript_youtube svc url w = (Ok r, w1) ->
  r = None \/ r = Some [] ->
  ydl_download svc url (fs w1) = (Ok tt, files) ->
  AUDIO_PATH ∈ files ->
  whisper_transcribe svc AUDIO_PATH files = Raise e ->
  fst (get_transcript svc url record_status w) = Raise e /\
  AUDIO_PATH ∈ fs (snd (get_transcript svc url record_status w)).
Proof.
  intros Hf Hr Hd Hin Hw. rewrite get_transcript_cases, Hf.
  assert (E : fallback_outcome svc url w1 =
              (Raise e, mkWorld files (status w1 ++ [MSG_FALLBACK]) (stdout w1)
                          ((calls w1 ++ [CallDownloadAudio url])
                             ++ [CallWhisper AUDIO_PATH]) (runtime w1))).
  { unfold fallback_outcome. by rewrite Hd, Hw. }
  destruct Hr as [-> | ->]; by rewrite E.
Qed.

(** On the successful local path the file is removed before the call
    returns. *)
Lemma temp_file_removed_on_success svc url w r w1 t w' :
  get_transcript_youtube svc url w = (Ok r, w1) ->
  r = None \/ r = Some [] ->
  get_transcript svc url record_status w = (Ok t, w') ->
  AUDIO_PATH ∉ fs w'.
Proof.
  intros Hf Hr. rewrite get_transcript_cases, Hf.
  assert (Hw : fallback_outcome svc url w1 = (Ok t, w') -> AUDIO_PATH ∉ fs w').
  { unfold fallback_outcome.
    destruct (ydl_download svc url (fs w1)) as [[[]|e] files]; [|done].
    destruct (whisper_transcribe svc AUDIO_PATH files) as [tr|e]; [|done].
    destruct (decide (AUDIO_PATH ∈ files)); [|done].
    intros [= _ <-]. simpl.
    intros [_ Hn]%elem_of_difference. apply Hn. by apply elem_of_singleton. }
  by destruct Hr as [-> | ->].
Qed.

(** C2, as stated, fails: a fetcher result that is text but empty is not
    returned; the call goes on to the download and the local transcription
    and returns their text. *)
Lemma empty_remote_text_is_not_returned :
  ~ (forall svc url w t w1,
       get_transcript_youtube svc url w = (Ok (Some t), w1) ->
       fst (get_transcript svc url record_status w) = Ok t /\
       calls (snd (get_transcript svc url record_status w)) = calls w1).
Proof.
  intros H.
  destruct (H (services silent_captions) short_url empty_world []
              (mkWorld ∅ [] [] [CallTranscriptApi (lit "dQw4w9WgXcQ")] 0))
    as [Hr _]; [by vm_compute|].
  vm_compute in Hr. discriminate Hr.
Qed.

(** C2, amended: when the fetcher returns non-empty text, the orchestrator
    returns that text unchanged, reports [MSG_API], and the only call made
    is the one to the transcript API: no download, no local transcription,
    and the files are untouched. *)
Theorem remote_text_returned_unchanged svc url w t w1 :
  get_transcript_youtube svc url w = (Ok (Some t), w1) ->
  t <> [] ->
  get_transcript svc url record_status w =
    (Ok t, mkWorld (fs w1) (status w1 ++ [MSG_API]) (stdout w1) (calls w1) (runtime w1))
  /\ fs w1 = fs w
  /\ exists vid, calls w1 = calls w ++ [CallTranscriptApi vid].
Proof.
  intros Hf Ht. split; [|split].
  - rewrite get_transcript_cases, Hf. by destruct t.
  - by apply get_transcript_youtube_frame in Hf as (? & _).
  - by eapply fetched_text_calls.
Qed.

Lemma remote_text_returned_unchanged_witness :
  get_transcript (services captioned) short_url record_status empty_world =
    (Ok (lit "hello world"),
     mkWorld ∅ [MSG_API] [] [CallTranscriptApi (lit "dQw4w9WgXcQ")] 0).
Proof.
  refine (proj1 (remote_text_returned_unchanged (services captioned) short_url
                   empty_world (lit "hello world")
                   (mkWorld ∅ [] [] [CallTranscriptApi (lit "dQw4w9WgXcQ")] 0) _ _)).
  - vm_compute. reflexivity.
  - discriminate.
Defined.

(** C9: the status strings a call of [get_transcript] delivers, in order.
    The fetcher delivers none. When it returns non-empty text the one event
    is [MSG_API]. On the local path [MSG_FALLBACK] comes first and
    [MSG_WHISPER] follows it when the call returns; when the call raises
    [MSG_FALLBACK] is the only event. Every event is in the world the call
    returns, so none is delivered later. *)
Theorem status_events_in_pipeline_order svc url w :
  let '(r, w1) := get_transcript_youtube svc url w in
  let '(res, w') := get_transcript svc url record_status w in
  status w1 = status w /\
  match r, res with
  | Raise _, _ => status w' = status w
  | Ok (Some (_ :: _)), _ => status w' = status w ++ [MSG_API]
  | Ok _, Ok _ => status w' = status w ++ [MSG_FALLBACK; MSG_WHISPER]
  | Ok _, Raise _ => status w' = status w ++ [MSG_FALLBACK]
  end.
Proof.
  rewrite get_transcript_cases.
  destruct (get_transcript_youtube svc url w) as [r w1] eqn:Hf.
  apply get_transcript_youtube_frame in Hf as (_ & Hs & _).
  assert (Hfb : let '(res, w') := fallback_outcome svc url w1 in
                match res with
                | Ok _ => status w' = status w ++ [MSG_FALLBACK; MSG_WHISPER]
                | Raise _ => status w' = status w ++ [MSG_FALLBACK]
                end).
  { unfold fallback_outcome. rewrite Hs.
    destruct (ydl_download svc url (fs w1)) as [[[]|e] files]; [|done].
    destruct (whisper_transcribe svc AUDIO_PATH files) as [tr|e]; [|done].
    destruct (decide (AUDIO_PATH ∈ files)); simpl; [|done].
    by rewrite <- app_assoc. }
  destruct r as [[[|c t]|]|e]; simpl.
  - by destruct (fallback_outcome svc url w1) as [[] ?].
  - by rewrite Hs.
  - by destruct (fallback_outcome svc url w1) as [[] ?].
  - done.
Qed.

(** C10: an empty transcript from the fetcher is handled like no
    transcript. The call reports [MSG_FALLBACK], invokes [download_audio]
    on the URL and, when the download succeeds, whisper on [audio.mp3]; the
    outcome is that of the local path, the same a fetcher result of [None]
    in that world leads to. *)
Theorem empty_remote_transcript_falls_back svc url w w1 :
  get_transcript_youtube svc url w = (Ok (Some []), w1) ->
  get_transcript svc url record_status w = fallback_outcome svc url w1
  /\ (forall w0, get_transcript_youtube svc url w0 = (Ok None, w1) ->
                 get_transcript svc url record_status w0 =
                 get_transcript svc url record_status w)
  /\ (exists more,
        calls (snd (get_transcript svc url record_status w)) =
          calls w1 ++ CallDownloadAudio url :: more /\
        (fst (ydl_download svc url (fs w1)) = Ok tt ->
         exists more', more = CallWhisper AUDIO_PATH :: more'))
  /\ (exists more,
        status (snd (get_transcript svc url record_status w)) =
          status w1 ++ MSG_FALLBACK :: more).
Proof.
  intros Hf.
  assert (E : get_transcript svc url record_status w = fallback_outcome svc url w1)
    by (by rewrite get_transcript_cases, Hf).
  split; [done|]. split; [|rewrite E; clear E Hf; split].
  - intros w0 H0. by rewrite E, get_transcript_cases, H0.
  - unfold fallback_outcome.
    destruct (ydl_download svc url (fs w1)) as [[[]|e] files]; simpl;
      [|by exists []].
    destruct (whisper_transcribe svc AUDIO_PATH files) as [tr|e]; simpl.
    + destruct (decide (AUDIO_PATH ∈ files)); simpl;
        rewrite <- !app_assoc; simpl; eauto.
    + rewrite <- !app_assoc; simpl; eauto.
  - unfold fallback_outcome.
    destruct (ydl_download svc url (fs w1)) as [[[]|e] files]; simpl;
      [|by exists []].
    destruct (whisper_transcribe svc AUDIO_PATH files) as [tr|e]; simpl;
      [|by exists []].
    destruct (decide (AUDIO_PATH ∈ files)); simpl; [|by exists []].
    rewrite <- app_assoc. simpl. eauto.
Qed.

Lemma empty_remote_transcript_falls_back_witness :
  get_transcript (services silent_captions) short_url record_status empty_world =
    (Ok (lit "spoken words"),
     mkWorld ∅ [MSG_FALLBACK; MSG_WHISPER] []
             [CallTranscriptApi (lit "dQw4w9WgXcQ"); CallDownloadAudio short_url;
              CallWhisper AUDIO_PATH; CallRemove AUDIO_PATH] 0).
Proof.
  refine (eq_trans
            (proj1 (empty_remote_transcript_falls_back (services silent_captions)
                      short_url empty_world
                      (mkWorld ∅ [] [] [CallTranscriptApi (lit "dQw4w9WgXcQ")] 0) _))
            _).
  - vm_compute. reflexivity.
  - vm_compute. reflexivity.
Defined.

End AcquisitionClaims.

(** ** Properties of the URL parser and of the remote fetcher *)

Section FetcherClaims.

Import Demo Scenario.

Implicit Types (svc : Services) (url vid : str) (w : World).

(** The three branches of [get_video_id] on a parsed URL. With [youtu.be] in the host the identifier is
    the path without its first character, so [/<id>] gives [<id>]; with
    [youtube.com] in the host it is the (first) value of the [v] parameter;
    a long-domain URL without [v], and any other host, give no identifier,
    and then the fetcher raises [ValueError("Invalid YouTube URL")] without
    calling anything or changing the world. *)
Theorem url_shapes svc url parsed :
  urlparse svc url = Ok parsed ->
  (contains (lit "youtu.be") (netloc parsed) = true ->
     get_video_id svc url = Ok (Some (drop 1 (path parsed))) /\
     forall id, path parsed = lit "/" ++ id -> get_video_id svc url = Ok (Some id))
  /\ (contains (lit "youtu.be") (netloc parsed) = false ->
      contains (lit "youtube.com") (netloc parsed) = true ->
      forall v vs, parse_qs svc (query parsed) !! lit "v" = Some (v :: vs) ->
                   get_video_id svc url = Ok (Some v))
  /\ (contains (lit "youtu.be") (netloc parsed) = false ->
      contains (lit "youtube.com") (netloc parsed) = false \/
      parse_qs svc (query parsed) !! lit "v" = None ->
      get_video_id svc url = Ok None /\
      forall w, get_transcript_youtube svc url w =
                  (Raise (ValueError (lit "Invalid YouTube URL")), w)).
Proof.
  intros Hp. split; [|split].
  - intros Hs. unfold get_video_id. rewrite Hp, Hs.
    split; [done|]. by intros id ->.
  - intros Hs Hl v vs Hv. unfold get_video_id. by rewrite Hp, Hs, Hl, Hv.
  - intros Hs Hno.
    assert (E : get_video_id svc url = Ok None).
    { unfold get_video_id. rewrite Hp, Hs.
      destruct Hno as [-> | ->]; [done|].
      by destruct (contains (lit "youtube.com") (netloc parsed)). }
    split; [done|]. intros w.
    by rewrite get_transcript_youtube_cases, E.
Qed.

Lemma url_shapes_witness :
  get_video_id (services captioned) short_url = Ok (Some (lit "dQw4w9WgXcQ"))
  /\ get_video_id (services captioned) long_url = Ok (Some (lit "dQw4w9WgXcQ"))
  /\ get_transcript_youtube (services captioned) no_v_url empty_world =
       (Raise (ValueError (lit "Invalid YouTube URL")), empty_world)
  /\ get_transcript_youtube (services captioned) other_url empty_world =
       (Raise (ValueError (lit "Invalid YouTube URL")), empty_world).
Proof.
  split; [|split; [|split]].
  - refine (proj2 (proj1 (url_shapes (services captioned) short_url
                            (mkParse (lit "youtu.be") (lit "/dQw4w9WgXcQ") [])
                            _) _) _ _);
      vm_compute; reflexivity.
  - refine (proj1 (proj2 (url_shapes (services captioned) long_url
                            (mkParse (lit "www.youtube.com") (lit "/watch")
                                     (lit "v=dQw4w9WgXcQ&x=1"))
                            _)) _ _ (lit "dQw4w9WgXcQ") [] _);
      vm_compute; reflexivity.
  - refine (proj2 (proj2 (proj2 (url_shapes (services captioned) no_v_url
                            (mkParse (lit "www.youtube.com") (lit "/watch") (lit "x=1"))
                            _)) _ (or_intror _)) empty_world);
      vm_compute; reflexivity.
  - refine (proj2 (proj2 (proj2 (url_shapes (services captioned) other_url
                            (mkParse (lit "example.com") (lit "/dQw4w9WgXcQ") [])
                            _)) _ (or_introl _)) empty_world);
      vm_compute; reflexivity.
Defined.

(** C6: once the identifier is known and not empty, the fetcher calls the
    transcript API. If the API returns segments the result is their texts
    joined with single spaces; if it raises any [Exception] the result is
    [None], and nothing is raised to the caller. *)
Theorem fetcher_absence_or_joined_text svc url vid w :
  get_video_id svc url = Ok (Some vid) ->
  vid <> [] ->
  fst (get_transcript_youtube svc url w) =
  match transcript_api svc vid with
  | Ok segments => Ok (Some (join (lit " ") (List.map text segments)))
  | Raise e => if is_Exception e then Ok None else Raise e
  end.
Proof.
  intros Hid Hne. rewrite get_transcript_youtube_cases, Hid.
  destruct vid as [|c vid]; [done|]. unfold fetch_outcome.
  destruct (transcript_api svc (c :: vid)) as [segments|e]; [done|].
  by destruct (is_Exception e).
Qed.

Lemma fetcher_absence_or_joined_text_witness :
  fst (get_transcript_youtube (services captioned) short_url empty_world) =
    Ok (Some (lit "hello world"))
  /\ fst (get_transcript_youtube (services local_only) short_url empty_world) =
    Ok None.
Proof.
  split.
  - refine (eq_trans (fetcher_absence_or_joined_text (services captioned)
                        short_url (lit "dQw4w9WgXcQ") empty_world _ _) _);
      [vm_compute; reflexivity | discriminate | vm_compute; reflexivity].
  - refine (eq_trans (fetcher_absence_or_joined_text (services local_only)
                        short_url (lit "dQw4w9WgXcQ") empty_world _ _) _);
      [vm_compute; reflexivity | discriminate | vm_compute; reflexivity].
Defined.

End FetcherClaims.

(** ** Properties of the summarizer *)

(** Decoding is deterministic when the summaries do not depend on the
    state of the model runtime. *)
Definition deterministic_decoding (svc : Services) : Prop :=
  forall chunks rt rt',
    fst (summarizer svc chunks rt) = fst (summarizer svc chunks rt').

(** The chunks of [text] under the default chunk size. *)
Definition default_chunks (text : str) : list str :=
  List.map (fun i => slice text i (i + 1000)) (range0 (length text) 1000).

Module SummaryScenario.

Import Demo.

Definition model_output : str :=
  lit "Short bit. This is a sufficiently long sentence for inclusion here. Another tiny one.".

Definition kept_sentence : str :=
  lit "This is a sufficiently long sentence for inclusion here".

(** A model that answers with the three sentences, whatever the chunks. *)
Definition three_sentences : Script :=
  mkScript (Ok []) true true (Ok [])
           (fun _ => [lit "Short bit.";
                      lit "This is a sufficiently long sentence for inclusion here.";
                      lit "Another tiny one."]).

(** A model that echoes its chunks. *)
Definition echo : Script :=
  mkScript (Ok []) true true (Ok []) (fun chunks => chunks).

(** A sampling model: the answer depends on the runtime state, which
    every call advances. *)
Definition sampling_services : Services :=
  mkServices split_url split_query (fun _ => Ok []) (fun _ => [])
             (fun _ files => (Ok tt, files)) (fun _ _ => Ok []) (Ok tt)
             (fun _ rt =>
                (Ok [if N.even rt
                     then lit "one two three four five six seven eight"
                     else lit "a b c d e f g h i"],
                 rt + 1)).

End SummaryScenario.

Section SummarizerClaims.

Import Demo SummaryScenario.

Implicit Types (svc : Services) (text : str) (w : World).

Lemma chunks_of_default text : chunks_of text DEFAULT_MAX_CHUNK = Ok (default_chunks text).
Proof. by rewrite chunks_of_positive. Qed.

(** The text of a bullet: what stands between the marker and the
    newline. *)
Definition bullet_text (line : str) : str := strip_dots line ++ [DOT].

(** 1 for a line that starts with a period, 0 otherwise. *)
Definition leading_period (line : str) : nat :=
  match line with
  | c :: _ => if is_dot c then 1 else 0
  | [] => 0
  end.

Lemma render_bullet_text (line : str) :
  render_bullet line = [BULLET; SPACE] ++ bullet_text line ++ [NEWLINE].
Proof. unfold render_bullet, bullet_text. by rewrite <- app_assoc. Qed.

Lemma strip_dots_left (line : str) :
  exists r, forallb is_dot r = true /\
            line = takewhile is_dot line ++ strip_dots line ++ r.
Proof.
  exists (rev (takewhile is_dot (rev (dropwhile is_dot line)))). split.
  - rewrite forallb_reverse. apply takewhile_all.
  - unfold strip_dots, strip_by, rstrip_by, lstrip_by.
    rewrite <- rev_app_distr, takewhile_dropwhile, rev_involutive.
    by rewrite takewhile_dropwhile.
Qed.

(** Stripping the periods costs at most the first word, and only when the
    line starts with a period. *)
Lemma bullet_text_words (line : str) :
  (length (split line) <=
   length (split (bullet_text line)) + leading_period line)%nat.
Proof.
  rewrite !split_length. unfold bullet_text.
  destruct (strip_dots_left line) as (r & Hr & E).
  set (core := strip_dots line) in *.
  apply (f_equal (count_words false)) in E.
  rewrite (count_words_dots false _ _ (takewhile_all is_dot line)) in E.
  rewrite E. clear E.
  assert (Hmid : (count_words false (core ++ r)
                  <= count_words false (core ++ [DOT]))%nat).
  { apply count_words_app_mono. intros b'.
    rewrite <- (app_nil_r r), (count_words_dots _ _ _ Hr). simpl.
    destruct (b' || truthy r); lia. }
  pose proof (count_words_true_false (core ++ r)) as Ht.
  clearbody core.
  destruct line as [|c line]; cbn [takewhile leading_period]; [simpl; lia|].
  destruct (is_dot c); simpl; lia.
Qed.

Lemma surviving_lines_words (full_summary : str) :
  Forall (fun line =>
            (7 < length (split line))%nat
            /\ render_bullet line = [BULLET; SPACE] ++ bullet_text line ++ [NEWLINE]
            /\ (length (split line) <=
                length (split (bullet_text line)) + leading_period line)%nat)
         (surviving_lines full_summary).
Proof.
  apply Forall_forall. intros line Hin.
  apply list_elem_of_In, filter_In in Hin as [_ Hk].
  split; [|split; [apply render_bullet_text | apply bullet_text_words]].
  unfold keeps in Hk. by apply andb_true_iff in Hk as [_ ?%Nat.ltb_lt].
Qed.

(** C3, as stated, fails: the filter counts the words of the line before
    its periods are stripped. A line that starts with a separate period
    passes with 8 words and gives a bullet whose text has exactly 7. *)
Lemma bullet_text_with_seven_words :
  format_summary (lit ". a b c d e f g") =
    HEADING_LINE ++ [BULLET; SPACE] ++ lit " a b c d e f g." ++ [NEWLINE]
  /\ length (split (lit " a b c d e f g.")) = 7%nat
  /\ ~ (forall full_summary,
          Forall (fun line => (7 < length (split (bullet_text line)))%nat)
                 (surviving_lines full_summary)).
Proof.
  split; [by vm_compute|]. split; [by vm_compute|].
  intros H. specialize (H (lit ". a b c d e f g")).
  vm_compute in H. apply Forall_inv in H. lia.
Qed.

(** C3, amended: the layout of the summary. The output is the heading line
    followed by one bullet for each candidate line that passes the filter,
    in the order of the candidate lines, each line as often as it occurs.
    Every line that passes has more than 7 words; its bullet is the
    marker, the line with the periods at its ends replaced by one period,
    and a newline; that text has as many words as the line, or one less
    when the line starts with a period, so never fewer than 7. When no
    line passes, the output is the heading line alone. [summarize_text]
    returns this text whenever the pipeline loads and the model answers,
    and raises their exception otherwise. *)
Theorem summary_layout_by_line_words svc text w (full_summary : str) :
  format_summary full_summary =
    HEADING_LINE ++
    concat (List.map render_bullet
              (List.filter keeps (List.map strip (re_split_sentences full_summary))))
  /\ Forall (fun line =>
               (7 < length (split line))%nat
               /\ render_bullet line =
                    [BULLET; SPACE] ++ bullet_text line ++ [NEWLINE]
               /\ (length (split line) <=
                   length (split (bullet_text line)) + leading_period line)%nat)
            (List.filter keeps (List.map strip (re_split_sentences full_summary)))
  /\ match List.filter keeps (List.map strip (re_split_sentences full_summary)) with
     | [] => format_summary full_summary = HEADING_LINE
     | _ :: _ => True
     end
  /\ fst (summarize_text svc text record_status DEFAULT_MAX_CHUNK w) =
     match pipeline_load svc with
     | Raise e => Raise e
     | Ok _ =>
         match fst (summarizer svc (default_chunks text) (runtime w)) with
         | Raise e => Raise e
         | Ok summaries => Ok (format_summary (join (lit " ") summaries))
         end
     end.
Proof.
  split; [apply format_summary_bullets|].
  split; [apply surviving_lines_words|]. split.
  - rewrite format_summary_bullets. unfold bullets, surviving_lines, candidate_lines.
    destruct (List.filter _ _); [|done].
    change (HEADING_LINE ++ [] = HEADING_LINE). apply app_nil_r.
  - rewrite summarize_text_cases. unfold summarize_outcome.
    rewrite chunks_of_default.
    destruct (pipeline_load svc) as [[]|e]; [|done].
    by destruct (summarizer svc (default_chunks text) (runtime w)) as [[?|?] ?].
Qed.

(** C4: on the example output the split gives three pieces, of 2, 9 and 3
    words; only the middle one passes the filter, and the summary is the
    heading line and its bullet. *)
Theorem example_keeps_one_bullet :
  re_split_sentences model_output =
    [lit "Short bit"; kept_sentence; lit "Another tiny one."]
  /\ List.map (fun line => length (split line)) (candidate_lines model_output)
     = [2; 9; 3]%nat
  /\ surviving_lines model_output = [kept_sentence]
  /\ bullets model_output =
     [[BULLET; SPACE] ++ kept_sentence ++ lit "." ++ [NEWLINE]]
  /\ format_summary model_output =
     HEADING_LINE ++ [BULLET; SPACE] ++ kept_sentence ++ lit "." ++ [NEWLINE]
  /\ fst (summarize_text (services three_sentences) (lit "some transcript")
                         record_status DEFAULT_MAX_CHUNK empty_world) =
     Ok (HEADING_LINE ++ [BULLET; SPACE] ++ kept_sentence ++ lit "." ++ [NEWLINE]).
Proof. vm_compute. done. Qed.

(** All chunks before the last one have the full length. *)
Lemma default_chunks_full text :
  Forall (fun c => length c = 1000%nat) (removelast (default_chunks text)).
Proof.
  unfold default_chunks, range0. rewrite List.map_map.
  set (n := length text).
  pose proof (Nat.div_mod_eq (n + 1000 - 1) 1000) as Ed.
  pose proof (Nat.mod_upper_bound (n + 1000 - 1) 1000) as U.
  destruct ((n + 1000 - 1) / 1000)%nat as [|m]; [by constructor|].
  rewrite seq_S, List.map_app. simpl List.map at 2.
  rewrite removelast_last. apply Forall_forall. intros c Hc.
  apply list_elem_of_In, in_map_iff in Hc as (q & <- & Hq).
  apply in_seq in Hq. rewrite slice_take_drop, length_take, length_drop.
  fold n. lia.
Qed.

Lemma default_chunks_short text :
  (length text < 1000)%nat ->
  default_chunks text = match text with [] => [] | _ :: _ => [text] end.
Proof.
  intros H. unfold default_chunks. destruct text as [|c text].
  - by rewrite range0_empty by lia.
  - rewrite range0_short by (simpl in *; lia).
    cbn [List.map]. rewrite slice_take_drop. cbn [drop]. by rewrite take_ge by lia.
Qed.

(** The chunks handed to the model: the pipeline runs the model once on
    each chunk of the list it is called with. *)
Definition model_inputs (cs : list call) : list str :=
  flat_map (fun c => match c with
                     | CallSummarizer chunks => chunks
                     | _ => []
                     end) cs.

Lemma model_inputs_app (cs cs' : list call) :
  model_inputs (cs ++ cs') = model_inputs cs ++ model_inputs cs'.
Proof. apply flat_map_app. Qed.

(** What [summarize_text] returns and leaves once the pipeline is loaded
    and the text is cut into [chunks]: the summarizer is applied to the
    chunks in the current runtime state, and its answer decides the
    rest. *)
Definition summarized (svc : Services) (chunks : list str) (w : World)
  : result str * World :=
  let called := calls w ++ [CallPipeline; CallSummarizer chunks] in
  match summarizer svc chunks (runtime w) with
  | (Ok summaries, rt) =>
      (Ok (format_summary (join (lit " ") summaries)),
       mkWorld (fs w)
               (status w ++ [MSG_SUMMARIZING; MSG_FORMATTING; MSG_COMPLETE])
               (stdout w) called rt)
  | (Raise e, rt) =>
      (Raise e, mkWorld (fs w) (status w ++ [MSG_SUMMARIZING]) (stdout w) called rt)
  end.

Lemma summarize_text_summarized svc text (max_chunk : Z) chunks w :
  pipeline_load svc = Ok tt ->
  chunks_of text max_chunk = Ok chunks ->
  summarize_text svc text record_status max_chunk w = summarized svc chunks w.
Proof.
  intros Hload Hc. rewrite summarize_text_cases.
  unfold summarize_outcome, summarized. rewrite Hload, Hc.
  destruct (summarizer svc chunks (runtime w)) as [[summaries|e] rt]; [|done].
  by rewrite <- app_assoc.
Qed.

(** C7, as stated, fails: the empty text is shorter than the chunk size,
    and it has no chunk. The summarizer is called with the empty list, so
    the model runs on nothing. *)
Lemma empty_text_reaches_no_model :
  (let '(r, w') := summarize_text (services echo) [] record_status
                                  DEFAULT_MAX_CHUNK empty_world in
   r = Ok HEADING_LINE /\
   calls w' = [CallPipeline; CallSummarizer []] /\
   model_inputs (calls w') = [])
  /\ ~ (forall svc text w,
          pipeline_load svc = Ok tt ->
          (length text < 1000)%nat ->
          exists chunk,
            model_inputs
              (calls (snd (summarize_text svc text record_status
                                          DEFAULT_MAX_CHUNK w))) =
            model_inputs (calls w) ++ [chunk]).
Proof.
  split; [by vm_compute|].
  intros H.
  destruct (H (services echo) [] empty_world eq_refl) as (chunk & Hc);
    [simpl; lia|].
  vm_compute in Hc. discriminate Hc.
Qed.

(** C7, amended: chunking and the model invocation. The chunks are
    contiguous pieces of the text: their concatenation is the text, each
    has between 1 and 1000 characters, and all before the last have
    exactly 1000. Once the pipeline is loaded, [summarize_text] applies
    the summarizer to exactly these chunks, and its result and the new
    runtime state are those of that application. For a non-empty text
    shorter than the chunk size the text itself is the one chunk, so the
    model runs exactly once, on the whole text. *)
Theorem short_text_is_one_model_input svc text w :
  pipeline_load svc = Ok tt ->
  exists chunks,
    chunks_of text DEFAULT_MAX_CHUNK = Ok chunks
    /\ concat chunks = text
    /\ Forall (fun c => (0 < length c <= 1000)%nat) chunks
    /\ Forall (fun c => length c = 1000%nat) (removelast chunks)
    /\ summarize_text svc text record_status DEFAULT_MAX_CHUNK w =
         summarized svc chunks w
    /\ model_inputs
         (calls (snd (summarize_text svc text record_status DEFAULT_MAX_CHUNK w)))
       = model_inputs (calls w) ++ chunks
    /\ (text <> [] -> (length text < 1000)%nat -> chunks = [text]).
Proof.
  intros Hload. exists (default_chunks text).
  pose proof (chunks_of_default text) as Hc.
  pose proof (summarize_text_summarized svc text DEFAULT_MAX_CHUNK _ w Hload Hc)
    as Hrun.
  split; [done|].
  split; [by eapply chunks_concat|].
  split; [by eapply (chunks_bounded _ DEFAULT_MAX_CHUNK)|].
  split; [apply default_chunks_full|].
  split; [done|]. split.
  - rewrite Hrun. unfold summarized.
    destruct (summarizer svc (default_chunks text) (runtime w)) as [[?|?] ?];
      cbn [snd calls]; rewrite model_inputs_app; simpl; by rewrite app_nil_r.
  - intros Hne Hlen. rewrite default_chunks_short by done. by destruct text.
Qed.

Lemma short_text_is_one_model_input_witness :
  summarize_text (services echo) (lit "a short transcript") record_status
                 DEFAULT_MAX_CHUNK empty_world =
    summarized (services echo) [lit "a short transcript"] empty_world.
Proof.
  destruct (short_text_is_one_model_input (services echo)
              (lit "a short transcript") empty_world eq_refl)
    as (chunks & _ & _ & _ & _ & Hrun & _ & Hshort).
  rewrite Hrun, Hshort; [reflexivity | discriminate | vm_compute; lia].
Defined.

(** C8: with deterministic decoding the summary depends on the text (and
    the chunk size) alone: from any two worlds the outcome is the same, in
    particular for a second call made in the world the first one left. *)
Theorem summarize_twice_same_output svc text (max_chunk : Z) w w' :
  deterministic_decoding svc ->
  fst (summarize_text svc text record_status max_chunk w) =
    fst (summarize_text svc text record_status max_chunk w')
  /\ fst (summarize_text svc text record_status max_chunk
            (snd (summarize_text svc text record_status max_chunk w))) =
     fst (summarize_text svc text record_status max_chunk w).
Proof.
  intros Hdet.
  assert (H : forall w1 w2, fst (summarize_text svc text record_status max_chunk w1) =
                            fst (summarize_text svc text record_status max_chunk w2)).
  { intros w1 w2. rewrite !summarize_text_cases. unfold summarize_outcome.
    destruct (pipeline_load svc) as [[]|e]; [|done].
    destruct (chunks_of text max_chunk) as [chunks|e]; [|done].
    specialize (Hdet chunks (runtime w1) (runtime w2)).
    destruct (summarizer svc chunks (runtime w1)) as [[s1|e1] rt1],
             (summarizer svc chunks (runtime w2)) as [[s2|e2] rt2];
      simpl in *; congruence. }
  split; apply H.
Qed.

Lemma summarize_twice_same_output_witness :
  fst (summarize_text (services three_sentences) (lit "some transcript")
         record_status DEFAULT_MAX_CHUNK
         (snd (summarize_text (services three_sentences) (lit "some transcript")
                 record_status DEFAULT_MAX_CHUNK empty_world))) =
  fst (summarize_text (services three_sentences) (lit "some transcript")
         record_status DEFAULT_MAX_CHUNK empty_world).
Proof.
  refine (proj2 (summarize_twice_same_output (services three_sentences)
                   (lit "some transcript") DEFAULT_MAX_CHUNK
                   empty_world empty_world _)).
  intros chunks rt rt'. reflexivity.
Defined.

(** With a sampling model the two calls can differ: the hypothesis of
    deterministic decoding is needed. *)
Example sampled_calls_differ :
  let first := summarize_text sampling_services (lit "some transcript")
                              record_status DEFAULT_MAX_CHUNK empty_world in
  fst (summarize_text sampling_services (lit "some transcript")
                      record_status DEFAULT_MAX_CHUNK (snd first)) <> fst first.
Proof. vm_compute. discriminate. Qed.

(** Repeated and reordered sentences stay as they are. *)
Example bullets_keep_order_and_repeats :
  surviving_lines
    (lit "B b c d e f g h i. A b c d e f g h i. B b c d e f g h i. Too short")
  = [lit "B b c d e f g h i"; lit "A b c d e f g h i"; lit "B b c d e f g h i"].
Proof. vm_compute. reflexivity. Qed.

(** A kept line that starts with a separate period loses that word when
    the periods are stripped; the bullet line still has more than 7
    words. *)
Example bullet_after_leading_period :
  keeps (lit ". a b c d e f g") = true
  /\ length (split (strip_dots (lit ". a b c d e f g") ++ [DOT])) = 7%nat
  /\ length (split (render_bullet (lit ". a b c d e f g"))) = 8%nat.
Proof. vm_compute. done. Qed.

End SummarizerClaims.

(** ** Further properties of the sentence split *)

Section SentenceSplit.

Implicit Types (cur s : str).

(** The separator the pattern consumes. *)
Definition SENTENCE_SEP : str := [DOT; SPACE].

(** Whether a piece starts with an upper-case ASCII letter. *)
Definition starts_upper (piece : str) : bool :=
  match piece with
  | c :: _ => is_AZ c
  | [] => false
  end.

(** Whether the pattern matches at the start of [s]. *)
Definition boundary_here s : bool :=
  match s with
  | c :: c1 :: c2 :: _ => is_dot c && (c1 =? SPACE) && is_AZ c2
  | _ => false
  end.

Lemma re_split_from_nil cur : re_split_from cur [] = [rev cur].
Proof. done. Qed.

Lemma re_split_from_boundary cur c c1 c2 s :
  boundary_here (c :: c1 :: c2 :: s) = true ->
  c = DOT /\ c1 = SPACE /\ is_AZ c2 = true /\
  re_split_from cur (c :: c1 :: c2 :: s) = rev cur :: re_split_from [] (c2 :: s).
Proof.
  intros H. cbn [re_split_from]. simpl in H. rewrite H.
  apply andb_true_iff in H as [[Hd Hs]%andb_true_iff Hu].
  apply N.eqb_eq in Hd, Hs. done.
Qed.

Lemma re_split_from_step cur c s :
  boundary_here (c :: s) = false ->
  re_split_from cur (c :: s) = re_split_from (c :: cur) s.
Proof.
  intros H. destruct s as [|c1 [|c2 s]]; try done.
  cbn [re_split_from]. simpl in H. by rewrite H.
Qed.

(** Induction along the run of [re_split_from]. *)
Lemma re_split_from_ind (P : str -> str -> list str -> Prop) :
  (forall cur, P cur [] [rev cur]) ->
  (forall cur c s,
     boundary_here (c :: s) = false ->
     P (c :: cur) s (re_split_from (c :: cur) s) ->
     P cur (c :: s) (re_split_from (c :: cur) s)) ->
  (forall cur c2 s,
     is_AZ c2 = true ->
     P [] (c2 :: s) (re_split_from [] (c2 :: s)) ->
     P cur (DOT :: SPACE :: c2 :: s) (rev cur :: re_split_from [] (c2 :: s))) ->
  forall cur s, P cur s (re_split_from cur s).
Proof.
  intros Hnil Hstep Hcut cur s.
  remember (length s) as n eqn:Hn. revert cur s Hn.
  induction n as [n IH] using lt_wf_ind. intros cur s Hn.
  destruct s as [|c s]; [apply Hnil|].
  destruct (boundary_here (c :: s)) eqn:Hb.
  - destruct s as [|c1 [|c2 s]]; try done.
    apply re_split_from_boundary with (cur := cur) in Hb as (-> & -> & Hu & ->).
    apply Hcut; [done|]. apply (IH (length (c2 :: s))); [simpl in *; lia | done].
  - rewrite re_split_from_step by done.
    apply Hstep; [done|]. apply (IH (length s)); [simpl in *; lia | done].
Qed.

Lemma re_split_from_head cur s :
  exists x rest, re_split_from cur s = (rev cur ++ x) :: rest.
Proof.
  apply (re_split_from_ind (fun cur s r => exists x rest, r = (rev cur ++ x) :: rest)).
  - intros cur'. exists [], []. by rewrite app_nil_r.
  - intros cur' c s' _ (x & rest & ->). exists (c :: x), rest.
    simpl. by rewrite <- app_assoc.
  - intros cur' c2 s' _ _. exists [], (re_split_from [] (c2 :: s')).
    by rewrite app_nil_r.
Qed.

Lemma join_cons (sep p : str) (ps : list str) :
  ps <> [] -> join sep (p :: ps) = p ++ sep ++ join sep ps.
Proof. by destruct ps. Qed.

Lemma re_split_from_join cur s :
  join SENTENCE_SEP (re_split_from cur s) = rev cur ++ s.
Proof.
  apply (re_split_from_ind (fun cur s r => join SENTENCE_SEP r = rev cur ++ s)).
  - intros cur'. simpl. by rewrite app_nil_r.
  - intros cur' c s' _ ->. simpl. by rewrite <- app_assoc.
  - intros cur' c2 s' _ IH.
    destruct (re_split_from_head [] (c2 :: s')) as (x & rest & E).
    rewrite join_cons by (by rewrite E). by rewrite IH.
Qed.

(** X1: the sentence split loses nothing but the separators: putting a
    period and a space back between the pieces gives the input again. *)
Theorem re_split_join_roundtrip s :
  join SENTENCE_SEP (re_split_sentences s) = s.
Proof. apply (re_split_from_join [] s). Qed.

(** X2: every piece after the first starts with an upper-case ASCII
    letter, and the split always yields at least one piece. *)
Theorem re_split_pieces_start_upper s :
  re_split_sentences s <> [] /\
  forallb starts_upper (tail (re_split_sentences s)) = true.
Proof.
  unfold re_split_sentences. split.
  { by destruct (re_split_from_head [] s) as (x & rest & ->). }
  apply (re_split_from_ind (fun cur s r => forallb starts_upper (tail r) = true)).
  - done.
  - done.
  - intros cur c2 s' Hu IH. cbn [tail].
    destruct (re_split_from_head [] (c2 :: s')) as (x & rest & E).
    rewrite E in *. cbn [tail] in IH.
    assert (Hx : exists y, x = c2 :: y).
    { destruct (boundary_here (c2 :: s')) eqn:Hb.
      - destruct s' as [|c1 [|c3 s']]; try done. simpl in Hb.
        assert (is_dot c2 = true) as Hd
            by (by apply andb_true_iff in Hb as [[? ?]%andb_true_iff ?]).
        apply N.eqb_eq in Hd. subst c2. done.
      - rewrite re_split_from_step in E by done.
        destruct (re_split_from_head [c2] s') as (y & rest' & E').
        rewrite E' in E. injection E as <- _. by exists y. }
    destruct Hx as (y & ->). simpl. by rewrite Hu, IH.
Qed.

End SentenceSplit.

(** ** Further properties of the reformatting stage *)

Section Reformatting.

Implicit Types (s t line : str) (b : bool).

Lemma count_words_true_pos s : (1 <= count_words true s)%nat.
Proof.
  induction s as [|c s IH]; simpl; [lia|]. destruct (isspace c); lia.
Qed.

Lemma count_words_suffix b s t :
  (count_words false t <= count_words b (s ++ t))%nat.
Proof.
  revert b. induction s as [|c s IH]; intros b; simpl.
  - destruct b; [apply count_words_false_true | done].
  - destruct (isspace c); [specialize (IH false); lia | apply IH].
Qed.

Lemma count_words_prefix b s t :
  (count_words b s <= count_words b (s ++ t))%nat.
Proof.
  rewrite <- (app_nil_r s) at 1. apply count_words_app_mono.
  intros [|]; simpl; [apply count_words_true_pos | lia].
Qed.

Lemma count_words_substring s t u :
  (count_words false t <= count_words false (s ++ t ++ u))%nat.
Proof.
  etrans; [apply (count_words_prefix false t u)|]. apply count_words_suffix.
Qed.

Lemma join_contains (sep piece : str) (pieces : list str) :
  In piece pieces -> exists pre post, join sep pieces = pre ++ piece ++ post.
Proof.
  induction pieces as [|p ps IH]; [done|]. intros [-> | Hin].
  - destruct ps as [|q ps]; [exists [], []; simpl; by rewrite app_nil_r |].
    exists [], (sep ++ join sep (q :: ps)). by rewrite join_cons.
  - destruct (IH Hin) as (pre & post & E).
    rewrite join_cons by (by destruct ps). rewrite E.
    exists (p ++ sep ++ pre), post. by rewrite <- !app_assoc.
Qed.

(** A candidate line has no more words than the whole summary. *)
Lemma candidate_line_words (full_summary line : str) :
  In line (candidate_lines full_summary) ->
  (length (split line) <= length (split full_summary))%nat.
Proof.
  unfold candidate_lines. intros (piece & <- & Hin)%in_map_iff.
  destruct (join_contains SENTENCE_SEP _ _ Hin) as (pre & post & E).
  unfold re_split_sentences in E. rewrite (re_split_from_join [] full_summary) in E.
  simpl in E.
  destruct (strip_by_decompose isspace piece) as (l & r & _ & _ & Ep).
  rewrite !split_length. fold (strip piece) in Ep.
  etrans; [apply (count_words_substring l (strip piece) r)|].
  rewrite <- Ep, E. apply count_words_substring.
Qed.

(** X3: a summary of at most 7 words has no line that passes the filter,
    so the formatted output is the heading line alone. *)
Theorem short_summary_gives_heading_only (full_summary : str) :
  (length (split full_summary) <= 7)%nat ->
  format_summary full_summary = HEADING_LINE.
Proof.
  intros Hshort. rewrite format_summary_bullets.
  assert (E : surviving_lines full_summary = []).
  { unfold surviving_lines.
    destruct (List.filter keeps (candidate_lines full_summary)) as [|line ls] eqn:Ef;
      [done|].
    assert (Hin : In line (List.filter keeps (candidate_lines full_summary)))
      by (rewrite Ef; by left).
    apply filter_In in Hin as [Hc Hk].
    apply candidate_line_words in Hc.
    unfold keeps in Hk. apply andb_true_iff in Hk as [_ Hk%Nat.ltb_lt]. lia. }
  unfold bullets. rewrite E. apply app_nil_r.
Qed.

Lemma short_summary_gives_heading_only_witness :
  format_summary (lit "This one is short. Also this one.") = HEADING_LINE.
Proof.
  apply short_summary_gives_heading_only. vm_compute. lia.
Defined.

Lemma dropwhile_head (p : char -> bool) s c :
  head (dropwhile p s) = Some c -> p c = false.
Proof.
  induction s as [|d s IH]; simpl; [done|].
  destruct (p d) eqn:E; [done|]. by intros [= <-].
Qed.

Lemma last_rev s : last (rev s) = head s.
Proof. destruct s as [|c s]; [done|]. simpl. apply last_snoc. Qed.

Lemma strip_by_ends (p : char -> bool) s c :
  head (strip_by p s) = Some c \/ last (strip_by p s) = Some c -> p c = false.
Proof.
  unfold strip_by, rstrip_by, lstrip_by. set (y := dropwhile p s).
  intros [Hh | Hl].
  - apply (dropwhile_head p s). fold y.
    pose proof (takewhile_dropwhile p (rev y)) as E.
    apply (f_equal (@rev N)) in E.
    rewrite rev_app_distr, rev_involutive in E. rewrite <- E.
    destruct (rev (dropwhile p (rev y))); [done|]. done.
  - rewrite last_rev in Hl. by apply dropwhile_head in Hl.
Qed.

(** X4: in a bullet the text between the marker and the final period
    neither starts nor ends with a period: the periods at both ends of the
    line are removed, whatever their number, and exactly one is appended. *)
Theorem bullet_period_normalized line :
  exists body dots_before dots_after,
    render_bullet line = [BULLET; SPACE] ++ body ++ [DOT; NEWLINE]
    /\ line = dots_before ++ body ++ dots_after
    /\ forallb is_dot dots_before = true
    /\ forallb is_dot dots_after = true
    /\ head body <> Some DOT
    /\ last body <> Some DOT.
Proof.
  destruct (strip_by_decompose is_dot line) as (l & r & Hl & Hr & E).
  exists (strip_dots line), l, r. repeat split; try done.
  - intros H. by pose proof (strip_by_ends is_dot line DOT (or_introl H)).
  - intros H. by pose proof (strip_by_ends is_dot line DOT (or_intror H)).
Qed.

End Reformatting.

(** ** Further properties of chunking and of [summarize_text] *)

Section SummarizerEdges.

Import Demo SummaryScenario.

Implicit Types (svc : Services) (text : str) (w : World).

Lemma chunks_full_but_last text (k : nat) :
  (0 < k)%nat ->
  Forall (fun c => length c = k)
         (removelast (List.map (fun i => slice text i (i + k))
                               (range0 (length text) k))).
Proof.
  intros Hk. unfold range0. rewrite List.map_map.
  set (n := length text).
  pose proof (Nat.div_mod_eq (n + k - 1) k) as Ed.
  pose proof (Nat.mod_upper_bound (n + k - 1) k) as U.
  destruct ((n + k - 1) / k)%nat as [|m]; [by constructor|].
  rewrite seq_S, List.map_app. simpl List.map at 2.
  rewrite removelast_last. apply Forall_forall. intros c Hc.
  apply list_elem_of_In, in_map_iff in Hc as (q & <- & Hq).
  apply in_seq in Hq. rewrite slice_take_drop, length_take, length_drop.
  fold n. nia.
Qed.

(** X5: for every positive chunk size the text is cut into
    ceil(len / size) chunks whose concatenation is the text; no chunk is
    empty or longer than the size, and only the last may be shorter. *)
Theorem chunks_of_any_positive_size text (max_chunk : Z) :
  (0 < max_chunk)%Z ->
  exists chunks,
    chunks_of text max_chunk = Ok chunks
    /\ length chunks =
         ((length text + Z.to_nat max_chunk - 1) / Z.to_nat max_chunk)%nat
    /\ concat chunks = text
    /\ Forall (fun c => (0 < length c <= Z.to_nat max_chunk)%nat) chunks
    /\ Forall (fun c => length c = Z.to_nat max_chunk) (removelast chunks).
Proof.
  intros Hpos. pose proof (chunks_of_positive text max_chunk Hpos) as E.
  eexists. split; [exact E|]. split; [|split; [|split]].
  - unfold range0. by rewrite !length_map, length_seq.
  - by eapply chunks_concat.
  - by eapply chunks_bounded.
  - apply chunks_full_but_last. lia.
Qed.

Lemma chunks_of_any_positive_size_witness :
  chunks_of (lit "abcdefg") 3 = Ok [lit "abc"; lit "def"; lit "g"].
Proof.
  destruct (chunks_of_any_positive_size (lit "abcdefg") 3 eq_refl)
    as (chunks & E & _).
  rewrite E. vm_compute in E. by injection E as <-.
Defined.

(** X6: with [max_chunk = 0] the call raises the [ValueError] of [range]
    once the pipeline is loaded: the first status message is out, the
    summarizer is never invoked and no later message follows. *)
Theorem zero_chunk_size_raises svc text w :
  pipeline_load svc = Ok tt ->
  summarize_text svc text record_status 0 w =
    (Raise (ValueError (lit "range() arg 3 must not be zero")),
     mkWorld (fs w) (status w ++ [MSG_SUMMARIZING]) (stdout w)
             (calls w ++ [CallPipeline]) (runtime w)).
Proof.
  intros Hload. rewrite summarize_text_cases. unfold summarize_outcome.
  by rewrite Hload.
Qed.

Lemma zero_chunk_size_raises_witness :
  fst (summarize_text (services echo) (lit "some transcript") record_status 0
                      empty_world) =
    Raise (ValueError (lit "range() arg 3 must not be zero")).
Proof.
  by rewrite (zero_chunk_size_raises (services echo) (lit "some transcript")
                empty_world eq_refl).
Defined.

(** X7: with a negative [max_chunk] the range is empty, so the text never
    reaches the model: the summarizer gets the empty list, and the outcome
    is the same for every text. *)
Theorem negative_chunk_size_ignores_text svc text text' (max_chunk : Z) w :
  (max_chunk < 0)%Z ->
  chunks_of text max_chunk = Ok []
  /\ summarize_text svc text record_status max_chunk w =
     summarize_text svc text' record_status max_chunk w.
Proof.
  intros Hneg.
  assert (E : forall t, chunks_of t max_chunk = Ok []).
  { intros t. unfold chunks_of.
    destruct (Z.eqb_spec max_chunk 0); [lia|].
    destruct (Z.ltb_spec max_chunk 0); [done | lia]. }
  split; [apply E|].
  rewrite !summarize_text_cases. unfold summarize_outcome. by rewrite !E.
Qed.

Lemma negative_chunk_size_ignores_text_witness :
  calls (snd (summarize_text (services echo) (lit "some transcript")
                             record_status (-1) empty_world)) =
    [CallPipeline; CallSummarizer []].
Proof.
  rewrite (proj2 (negative_chunk_size_ignores_text (services echo)
                    (lit "some transcript") [] (-1) empty_world eq_refl)).
  vm_compute. reflexivity.
Defined.

(** X8: the messages and calls of [summarize_text]. On return it has
    delivered the three status messages, in order; when it raises
    (pipeline load, chunking or model) only the first one. It calls the
    pipeline constructor first and the summarizer at most once after it,
    with the chunks of the text. *)
Theorem summarize_text_messages_and_calls svc text (max_chunk : Z) w :
  let '(r, w') := summarize_text svc text record_status max_chunk w in
  status w' =
    status w ++ match r with
                | Ok _ => [MSG_SUMMARIZING; MSG_FORMATTING; MSG_COMPLETE]
                | Raise _ => [MSG_SUMMARIZING]
                end
  /\ (calls w' = calls w ++ [CallPipeline] /\ (exists e, r = Raise e)
      \/ exists chunks, chunks_of text max_chunk = Ok chunks /\
                        calls w' = calls w ++ [CallPipeline; CallSummarizer chunks]).
Proof.
  rewrite summarize_text_cases. unfold summarize_outcome.
  destruct (pipeline_load svc) as [[]|e]; [|by eauto 10].
  destruct (chunks_of text max_chunk) as [chunks|e]; [|by eauto 10].
  destruct (summarizer svc chunks (runtime w)) as [[summaries|e] rt]; simpl.
  - rewrite <- app_assoc. eauto 10.
  - eauto 10.
Qed.

End SummarizerEdges.

(** ** Further properties of transcript acquisition *)

Module MoreScenarios.

Import Demo Scenario.

(** No captions; yt_dlp reports success but leaves no [audio.mp3], and
    whisper answers all the same. *)
Definition no_file_written : Script :=
  mkScript no_captions true false (Ok (lit "spoken words")) (fun chunks => chunks).

End MoreScenarios.

(** The identifier the fetcher hands to the API, when there is one. *)
Definition video_id_of (svc : Services) (url : str) : str :=
  match get_video_id svc url with
  | Ok (Some vid) => vid
  | _ => []
  end.

(** An API answer whose joined text is empty. *)
Definition no_text (segments : list Segment) : bool :=
  match segments with
  | [] => true
  | [s] => negb (truthy (text s))
  | _ => false
  end.

Section AcquisitionEdges.

Import Demo Scenario MoreScenarios.

Implicit Types (svc : Services) (url vid t : str) (w : World).

Lemma fallback_outcome_calls svc url w :
  exists new,
    calls (snd (fallback_outcome svc url w)) = calls w ++ new /\
    new `prefix_of`
      [CallDownloadAudio url; CallWhisper AUDIO_PATH; CallRemove AUDIO_PATH].
Proof.
  unfold fallback_outcome.
  destruct (ydl_download svc url (fs w)) as [[[]|e] files]; simpl;
    [|exists [CallDownloadAudio url]; split; [done | by eexists]].
  destruct (whisper_transcribe svc AUDIO_PATH files) as [tr|e]; simpl;
    [destruct (decide (AUDIO_PATH ∈ files)); simpl|].
  all: rewrite <- ?app_assoc; simpl; eexists; split; [reflexivity|];
    by eexists.
Qed.

(** X9: the collaborators are called in one fixed order and each at most
    once: the calls a run of [get_transcript] adds are a prefix of
    transcript API, download, whisper, remove. So whisper never runs
    without a download before it, and nothing is removed before whisper
    returned. *)
Theorem calls_in_fixed_order svc url w :
  exists new,
    calls (snd (get_transcript svc url record_status w)) = calls w ++ new /\
    new `prefix_of`
      [CallTranscriptApi (video_id_of svc url); CallDownloadAudio url;
       CallWhisper AUDIO_PATH; CallRemove AUDIO_PATH].
Proof.
  rewrite get_transcript_cases, get_transcript_youtube_cases.
  unfold video_id_of.
  destruct (get_video_id svc url) as [[[|c vid]|]|e];
    try (exists []; split; [by rewrite app_nil_r | by eexists]).
  destruct (fetch_outcome svc (c :: vid) w) as [r w1] eqn:Hf.
  pose proof (fetch_outcome_calls _ _ _ _ _ Hf) as Hc.
  destruct (fallback_outcome_calls svc url w1) as (new & Hn & [k Hk]).
  assert (Hfb : exists new',
             calls (snd (fallback_outcome svc url w1)) = calls w ++ new' /\
             new' `prefix_of`
               [CallTranscriptApi (c :: vid); CallDownloadAudio url;
                CallWhisper AUDIO_PATH; CallRemove AUDIO_PATH]).
  { exists (CallTranscriptApi (c :: vid) :: new). split.
    - rewrite Hn, Hc, <- app_assoc. done.
    - exists k. simpl. by rewrite Hk. }
  destruct r as [[[|c' t]|]|e]; simpl; try done.
  - exists [CallTranscriptApi (c :: vid)]. split; [done | by eexists].
  - exists [CallTranscriptApi (c :: vid)]. split; [done | by eexists].
Qed.

(** X10: without a usable identifier nothing happens: whatever the status
    callback is, the call raises (the parser's exception, or
    [ValueError("Invalid YouTube URL")] for a missing or empty identifier)
    and the world is as before: no status message, no call, no file
    change. *)
Theorem no_video_id_no_effect svc url (update_status : str -> M unit) w :
  video_id_of svc url = [] ->
  get_transcript svc url update_status w =
    (match get_video_id svc url with
     | Raise e => Raise e
     | Ok _ => Raise (ValueError (lit "Invalid YouTube URL"))
     end, w).
Proof.
  unfold video_id_of. intros Hid. unfold get_transcript, bind at 1.
  rewrite get_transcript_youtube_cases.
  by destruct (get_video_id svc url) as [[[|c vid]|]|e].
Qed.

Lemma no_video_id_no_effect_witness :
  get_transcript (services captioned) (lit "https://youtu.be/") record_status
                 empty_world =
    (Raise (ValueError (lit "Invalid YouTube URL")), empty_world).
Proof.
  refine (eq_trans (no_video_id_no_effect (services captioned)
                      (lit "https://youtu.be/") record_status empty_world _) _);
    vm_compute; reflexivity.
Defined.

Lemma join_texts_empty (segments : list Segment) :
  truthy (join (lit " ") (List.map text segments)) = negb (no_text segments).
Proof.
  destruct segments as [|s [|s' rest]]; simpl; try done.
  - by destruct (text s).
  - by destruct (text s).
Qed.

(** X11: when the API answers, the remote path is taken unless the answer
    has no text at all (no segment, or a single segment with empty text):
    with text the joined transcript is returned after [MSG_API]; without,
    the call continues on the local path. *)
Theorem api_answer_without_text_falls_back svc url vid segments w :
  get_video_id svc url = Ok (Some vid) ->
  vid <> [] ->
  transcript_api svc vid = Ok segments ->
  get_transcript svc url record_status w =
    let w1 := mkWorld (fs w) (status w) (stdout w)
                      (calls w ++ [CallTranscriptApi vid]) (runtime w) in
    if no_text segments
    then fallback_outcome svc url w1
    else (Ok (join (lit " ") (List.map text segments)),
          mkWorld (fs w1) (status w1 ++ [MSG_API]) (stdout w1) (calls w1)
                  (runtime w1)).
Proof.
  intros Hid Hne Hapi. rewrite get_transcript_cases, get_transcript_youtube_cases.
  rewrite Hid. destruct vid as [|c vid]; [done|].
  unfold fetch_outcome. rewrite Hapi.
  pose proof (join_texts_empty segments) as Hj.
  destruct (join (lit " ") (List.map text segments)), (no_text segments);
    simpl in *; done.
Qed.

Lemma api_answer_without_text_falls_back_witness :
  fst (get_transcript (services silent_captions) short_url record_status
                      empty_world) = Ok (lit "spoken words").
Proof.
  rewrite (api_answer_without_text_falls_back (services silent_captions)
             short_url (lit "dQw4w9WgXcQ") [mkSegment [] 0 1500] empty_world);
    [vm_compute; reflexivity | vm_compute; reflexivity | discriminate
    | vm_compute; reflexivity].
Defined.

End AcquisitionEdges.

Section TemporaryFile.

Import Demo Scenario MoreScenarios.

Implicit Types (svc : Services) (url t : str) (w : World).

(** X12: whenever [get_transcript] returns by the local path, [audio.mp3]
    does not exist afterwards, whether or not a file of that name was
    there before the call. *)
Theorem local_success_removes_audio_file svc url w r w1 t w' :
  get_transcript_youtube svc url w = (Ok r, w1) ->
  r = None \/ r = Some [] ->
  get_transcript svc url record_status w = (Ok t, w') ->
  AUDIO_PATH ∉ fs w'.
Proof. apply temp_file_removed_on_success. Qed.

Lemma local_success_removes_audio_file_witness :
  AUDIO_PATH ∉
    fs (snd (get_transcript (services local_only) short_url record_status
                            empty_world)).
Proof.
  eapply (local_success_removes_audio_file (services local_only) short_url
            empty_world None).
  - vm_compute. reflexivity.
  - by left.
  - vm_compute. reflexivity.
Defined.

(** X13: whenever the local path has downloaded [audio.mp3] and the
    transcription raises, [get_transcript] raises that exception and the
    file is still on disk: nothing removes it on this path. *)
Theorem failed_transcription_leaves_audio_file svc url w r w1 files e :
  get_transcript_youtube svc url w = (Ok r, w1) ->
  r = None \/ r = Some [] ->
  ydl_download svc url (fs w1) = (Ok tt, files) ->
  AUDIO_PATH ∈ files ->
  whisper_transcribe svc AUDIO_PATH files = Raise e ->
  fst (get_transcript svc url record_status w) = Raise e /\
  AUDIO_PATH ∈ fs (snd (get_transcript svc url record_status w)).
Proof. apply temp_file_left_when_transcription_raises. Qed.

Lemma failed_transcription_leaves_audio_file_witness :
  AUDIO_PATH ∈
    fs (snd (get_transcript (services whisper_fails) short_url record_status
                            empty_world)).
Proof.
  refine (proj2 (failed_transcription_leaves_audio_file
                   (services whisper_fails) short_url empty_world None
                   (mkWorld ∅ [] [lit "[YouTube Transcript Error] error"]
                            [CallTranscriptApi (lit "dQw4w9WgXcQ")] 0)
                   {[AUDIO_PATH]} (ServiceError (lit "RuntimeError"))
                   _ (or_introl eq_refl) _ _ eq_refl)).
  - vm_compute. reflexivity.
  - vm_compute. reflexivity.
  - by apply elem_of_singleton.
Defined.

(** X14: when the download reports success but has left no [audio.mp3]
    and whisper answers all the same, [os.remove] raises: the call ends in
    [FileNotFoundError], the transcript is lost and [MSG_WHISPER] is never
    delivered. *)
Theorem missing_audio_file_loses_transcript svc url w r w1 files t :
  get_transcript_youtube svc url w = (Ok r, w1) ->
  r = None \/ r = Some [] ->
  ydl_download svc url (fs w1) = (Ok tt, files) ->
  AUDIO_PATH ∉ files ->
  whisper_transcribe svc AUDIO_PATH files = Ok t ->
  get_transcript svc url record_status w =
    (Raise (FileNotFoundError AUDIO_PATH),
     mkWorld files (status w1 ++ [MSG_FALLBACK]) (stdout w1)
             (calls w1 ++ [CallDownloadAudio url; CallWhisper AUDIO_PATH;
                           CallRemove AUDIO_PATH])
             (runtime w1)).
Proof.
  intros Hf Hr Hd Hnot Hw. rewrite get_transcript_cases, Hf.
  assert (E : fallback_outcome svc url w1 =
              (Raise (FileNotFoundError AUDIO_PATH),
               mkWorld files (status w1 ++ [MSG_FALLBACK]) (stdout w1)
                       (calls w1 ++ [CallDownloadAudio url; CallWhisper AUDIO_PATH;
                                     CallRemove AUDIO_PATH])
                       (runtime w1))).
  { unfold fallback_outcome. rewrite Hd, Hw.
    destruct (decide (AUDIO_PATH ∈ files)); [done|].
    f_equal. f_equal. by rewrite <- !app_assoc. }
  by destruct Hr as [-> | ->].
Qed.

Lemma missing_audio_file_loses_transcript_witness :
  fst (get_transcript (services no_file_written) short_url record_status
                      empty_world) = Raise (FileNotFoundError AUDIO_PATH).
Proof.
  erewrite (missing_audio_file_loses_transcript (services no_file_written)
              short_url empty_world None _ ∅ (lit "spoken words")).
  - reflexivity.
  - vm_compute. reflexivity.
  - by left.
  - vm_compute. reflexivity.
  - apply not_elem_of_empty.
  - reflexivity.
Defined.

(** X15: the fetcher prints one line, the error prefixed with
    [[YouTube Transcript Error]], exactly when the API raised an
    [Exception]; otherwise it prints nothing. It never changes the files
    and delivers no status message. *)
Theorem fetcher_prints_only_on_failure svc url vid w :
  get_video_id svc url = Ok (Some vid) ->
  vid <> [] ->
  let w1 := snd (get_transcript_youtube svc url w) in
  stdout w1 =
    stdout w ++ match transcript_api svc vid with
                | Raise e =>
                    if is_Exception e
                    then [lit "[YouTube Transcript Error] " ++ exn_message svc e]
                    else []
                | Ok _ => []
                end
  /\ fs w1 = fs w /\ status w1 = status w.
Proof.
  intros Hid Hne. rewrite get_transcript_youtube_cases, Hid.
  destruct vid as [|c vid]; [done|]. unfold fetch_outcome.
  destruct (transcript_api svc (c :: vid)) as [segments|e]; simpl;
    [by rewrite app_nil_r|].
  destruct (is_Exception e); simpl; [done | by rewrite app_nil_r].
Qed.

Lemma fetcher_prints_only_on_failure_witness :
  stdout (snd (get_transcript_youtube (services local_only) short_url empty_world))
  = [lit "[YouTube Transcript Error] error"].
Proof.
  rewrite (proj1 (fetcher_prints_only_on_failure (services local_only) short_url
                    (lit "dQw4w9WgXcQ") empty_world eq_refl
                    ltac:(discriminate))).
  vm_compute. reflexivity.
Defined.

End TemporaryFile.

(** ** The window: [YouTubeSummarizerApp] *)

Inductive Dialog :=
| WarningBox (title message : str)
| CriticalBox (title message : str).

(** The widgets [run_summary] writes to. The status label is followed in
    [status], see [app_update_status]. *)
Record Widgets := mkWidgets {
  transcript_output : str;
  summary_output : str;
  dialogs : list Dialog
}.

Definition STATUS_PREFIX : str := [0x1F537] ++ lit " Status: ".
Definition MSG_FETCHING : str := [0x23F3] ++ lit " Fetching transcript...".
Definition MSG_SUMMARIZING_NEXT : str := [0x23F3] ++ lit " Summarizing...".
Definition MSG_DONE : str := [0x2705] ++ lit " Done.".
Definition MSG_FAILED : str := [0x274C] ++ lit " Failed.".

(** [f"🔷 Status: {msg}"] *)
Definition label_text (msg : str) : str := STATUS_PREFIX ++ msg.

(** Lines 175 to 177, the method [update_status]: the label text is set
    and the pending events are processed, so the text is on screen at
    once. [status] holds the texts the label has shown; the last one is
    its current text. *)
Definition app_update_status (msg : str) : M unit :=
  record_status (label_text msg).

Section Window.

Context (svc : Services).

(** The [except Exception as e] block of [run_summary]. *)
Definition show_failure (e : exn) (ui : Widgets) (w : World)
  : result unit * Widgets * World :=
  if is_Exception e
  then
    let ui' := mkWidgets (transcript_output ui) (summary_output ui)
                 (dialogs ui ++ [CriticalBox (lit "Error") (exn_message svc e)]) in
    (Ok tt, ui', snd (app_update_status MSG_FAILED w))
  else (Raise e, ui, w).

(** Lines 179 to 197, the method [run_summary], on the text of the URL
    field. *)
Definition run_summary (url_input : str) (ui : Widgets) (w : World)
  : result unit * Widgets * World :=
  let url := strip url_input in
  if negb (truthy url)
  then
    (Ok tt,
     mkWidgets (transcript_output ui) (summary_output ui)
       (dialogs ui ++ [WarningBox (lit "Input Error")
                                  (lit "Please enter a valid YouTube URL.")]),
     w)
  else
    match (app_update_status MSG_FETCHING ;;;
           get_transcript svc url app_update_status) w with
    | (Raise e, w1) => show_failure e ui w1
    | (Ok transcript, w1) =>
        let ui1 := mkWidgets transcript (summary_output ui) (dialogs ui) in
        match (app_update_status MSG_SUMMARIZING_NEXT ;;;
               summarize_text svc transcript app_update_status
                              DEFAULT_MAX_CHUNK) w1 with
        | (Raise e, w2) => show_failure e ui1 w2
        | (Ok summary, w2) =>
            let ui2 := mkWidgets transcript summary (dialogs ui) in
            (Ok tt, ui2, snd (app_update_status MSG_DONE w2))
        end
    end.

End Window.

(** ** The pipeline under another status callback *)

(** The world [w] with the status entries from position [n] on passed
    through [f]. *)
Definition decorate (f : str -> str) (n : nat) (w : World) : World :=
  mkWorld (fs w) (take n (status w) ++ List.map f (drop n (status w)))
          (stdout w) (calls w) (runtime w).

Section Callbacks.

Context (svc : Services).

Implicit Types (f : str -> str) (url text : str) (w : World).

Lemma decorate_new f (files : gset str) (old new out : list str)
    (cs : list call) (rt : N) :
  decorate f (length old) (mkWorld files (old ++ new) out cs rt) =
  mkWorld files (old ++ List.map f new) out cs rt.
Proof.
  unfold decorate. simpl. by rewrite take_app_length, drop_app_length.
Qed.

Lemma decorate_none f w : decorate f (length (status w)) w = w.
Proof.
  destruct w as [files old out cs rt]. simpl.
  rewrite <- (app_nil_r old) at 2. rewrite decorate_new. simpl.
  by rewrite app_nil_r.
Qed.

Lemma get_transcript_under f url w :
  get_transcript svc url (fun msg => record_status (f msg)) w =
  let '(r, w') := get_transcript svc url record_status w in
  (r, decorate f (length (status w)) w').
Proof.
  rewrite get_transcript_cases. unfold get_transcript, bind at 1.
  destruct (get_transcript_youtube svc url w) as [r w1] eqn:Hf.
  apply get_transcript_youtube_frame in Hf as (_ & Hs & _). rewrite <- Hs.
  destruct r as [[[|c t]|]|e].
  2: { unfold record_status, ret, bind. simpl. by rewrite decorate_new. }
  3: { by rewrite decorate_none. }
  all: unfold fallback_outcome, record_status, download_audio,
         get_transcript_whisper, record_call, os_remove, ret, bind; simpl.
  all: destruct (ydl_download svc url (fs w1)) as [[[]|e] files]; simpl;
         [|by rewrite decorate_new].
  all: destruct (whisper_transcribe svc AUDIO_PATH files) as [tr|e']; simpl;
         [|by rewrite decorate_new].
  all: destruct (decide (AUDIO_PATH ∈ files)); simpl;
         rewrite <- ?app_assoc; by rewrite decorate_new.
Qed.

Lemma summarize_text_under f text (max_chunk : Z) w :
  summarize_text svc text (fun msg => record_status (f msg)) max_chunk w =
  let '(r, w') := summarize_text svc text record_status max_chunk w in
  (r, decorate f (length (status w)) w').
Proof.
  rewrite summarize_text_cases.
  unfold summarize_text, summarize_outcome, run_summarizer, record_status,
    record_call, lift, ret, bind; simpl.
  destruct (pipeline_load svc) as [[]|e]; [|by rewrite decorate_new].
  destruct (chunks_of text max_chunk) as [chunks|e]; simpl;
    [|by rewrite decorate_new].
  destruct (summarizer svc chunks (runtime w)) as [[summaries|e] rt]; simpl;
    rewrite <- ?app_assoc; by rewrite decorate_new.
Qed.

(** X16: the status callback only decides what is recorded. Under a
    callback that passes each message through [f] before recording it,
    [get_transcript] returns the same result and leaves the same world as
    under the plain recorder, except that the status entries of this call
    are passed through [f]. *)
Theorem get_transcript_decorated f url w :
  get_transcript svc url (fun msg => record_status (f msg)) w =
  let '(r, w') := get_transcript svc url record_status w in
  (r, decorate f (length (status w)) w').
Proof. apply get_transcript_under. Qed.

(** X17: the same for [summarize_text]: result, files, printed lines and
    calls do not depend on how the callback words the messages. *)
Theorem summarize_text_decorated f text (max_chunk : Z) w :
  summarize_text svc text (fun msg => record_status (f msg)) max_chunk w =
  let '(r, w') := summarize_text svc text record_status max_chunk w in
  (r, decorate f (length (status w)) w').
Proof. apply summarize_text_under. Qed.

End Callbacks.

(** ** Properties of [run_summary] *)

(** The world after the label was set to the text of [msg]. *)
Definition told (msg : str) (w : World) : World :=
  mkWorld (fs w) (status w ++ [label_text msg]) (stdout w) (calls w) (runtime w).

Section WindowProperties.

Context (svc : Services).

Implicit Types (url url_input text : str) (ui : Widgets) (w : World).

Lemma app_update_status_run msg w :
  app_update_status msg w = (Ok tt, told msg w).
Proof. done. Qed.

(** [run_summary] in terms of the two pipeline stages under the plain
    recorder. *)
Lemma run_summary_cases url_input ui w :
  truthy (strip url_input) = true ->
  run_summary svc url_input ui w =
    let w0 := told MSG_FETCHING w in
    let '(r1, w1) := get_transcript svc (strip url_input) record_status w0 in
    let w1 := decorate label_text (length (status w0)) w1 in
    match r1 with
    | Raise e => show_failure svc e ui w1
    | Ok transcript =>
        let w1' := told MSG_SUMMARIZING_NEXT w1 in
        let '(r2, w2) :=
          summarize_text svc transcript record_status DEFAULT_MAX_CHUNK w1' in
        let w2 := decorate label_text (length (status w1')) w2 in
        match r2 with
        | Raise e =>
            show_failure svc e
              (mkWidgets transcript (summary_output ui) (dialogs ui)) w2
        | Ok summary =>
            (Ok tt, mkWidgets transcript summary (dialogs ui), told MSG_DONE w2)
        end
    end.
Proof.
  intros Hurl. unfold run_summary. rewrite Hurl. cbn [negb].
  unfold bind. rewrite !app_update_status_run.
  rewrite (get_transcript_under svc label_text).
  destruct (get_transcript svc (strip url_input) record_status
              (told MSG_FETCHING w)) as [[transcript|e] w1]; [|done].
  cbv zeta. rewrite !app_update_status_run.
  rewrite (summarize_text_under svc label_text).
  destruct (summarize_text svc transcript record_status DEFAULT_MAX_CHUNK _)
    as [[summary|e] w2]; [|done].
  by rewrite app_update_status_run.
Qed.

Lemma status_decorate f (old new : list str) w :
  status w = old ++ new ->
  status (decorate f (length old) w) = old ++ List.map f new.
Proof.
  intros E. unfold decorate. simpl.
  by rewrite E, take_app_length, drop_app_length.
Qed.

(** The result of [get_transcript] depends on the world through the files
    only, and the call leaves the model runtime alone. *)
Lemma get_transcript_result_frame url w w' :
  fs w = fs w' ->
  fst (get_transcript svc url record_status w) =
  fst (get_transcript svc url record_status w').
Proof.
  intros Hfs. rewrite !get_transcript_cases, !get_transcript_youtube_cases.
  destruct (get_video_id svc url) as [[[|c vid]|]|e]; try done.
  assert (Hfb : forall w1 w1', fs w1 = fs w1' ->
            fst (fallback_outcome svc url w1) = fst (fallback_outcome svc url w1')).
  { intros w1 w1' H1. unfold fallback_outcome. rewrite H1.
    destruct (ydl_download svc url (fs w1')) as [[[]|e] files]; [|done].
    destruct (whisper_transcribe svc AUDIO_PATH files) as [tr|e]; [|done].
    by destruct (decide (AUDIO_PATH ∈ files)). }
  unfold fetch_outcome.
  destruct (transcript_api svc (c :: vid)) as [segments|e].
  - destruct (join (lit " ") (List.map text segments)); [by apply Hfb | done].
  - destruct (is_Exception e); [by apply Hfb | done].
Qed.

Lemma get_transcript_keeps_runtime url w :
  runtime (snd (get_transcript svc url record_status w)) = runtime w.
Proof.
  rewrite get_transcript_cases.
  destruct (get_transcript_youtube svc url w) as [r w1] eqn:Hf.
  apply get_transcript_youtube_frame in Hf as (_ & _ & Hrt & _).
  assert (Hfb : runtime (snd (fallback_outcome svc url w1)) = runtime w).
  { unfold fallback_outcome.
    destruct (ydl_download svc url (fs w1)) as [[[]|e] files]; [|done].
    destruct (whisper_transcribe svc AUDIO_PATH files) as [tr|e]; [|done].
    by destruct (decide (AUDIO_PATH ∈ files)). }
  by destruct r as [[[|c t]|]|e].
Qed.

Lemma summarize_result_frame text (max_chunk : Z) w w' :
  runtime w = runtime w' ->
  fst (summarize_text svc text record_status max_chunk w) =
  fst (summarize_text svc text record_status max_chunk w').
Proof.
  intros Hrt. rewrite !summarize_text_cases. unfold summarize_outcome.
  rewrite Hrt.
  destruct (pipeline_load svc) as [[]|e]; [|done].
  destruct (chunks_of text max_chunk) as [chunks|e]; [|done].
  by destruct (summarizer svc chunks (runtime w')) as [[?|?] ?].
Qed.

(** The status messages of one acquisition. *)
Lemma get_transcript_status url w :
  let '(r, w') := get_transcript svc url record_status w in
  exists acq,
    status w' = status w ++ acq /\
    match r with
    | Ok _ => acq = [MSG_API] \/ acq = [MSG_FALLBACK; MSG_WHISPER]
    | Raise _ => acq = [] \/ acq = [MSG_FALLBACK]
    end.
Proof.
  rewrite get_transcript_cases.
  destruct (get_transcript_youtube svc url w) as [r w1] eqn:Hf.
  apply get_transcript_youtube_frame in Hf as (_ & Hs & _).
  assert (Hfb : let '(r, w') := fallback_outcome svc url w1 in
                exists acq,
                  status w' = status w ++ acq /\
                  match r with
                  | Ok _ => acq = [MSG_API] \/ acq = [MSG_FALLBACK; MSG_WHISPER]
                  | Raise _ => acq = [] \/ acq = [MSG_FALLBACK]
                  end).
  { unfold fallback_outcome. rewrite Hs.
    destruct (ydl_download svc url (fs w1)) as [[[]|e] files]; [|by eauto].
    destruct (whisper_transcribe svc AUDIO_PATH files) as [tr|e]; [|by eauto].
    destruct (decide (AUDIO_PATH ∈ files)); simpl; [|by eauto].
    rewrite <- app_assoc. eauto. }
  destruct r as [[[|c t]|]|e]; try done.
  - simpl. rewrite Hs. eauto.
  - exists []. rewrite app_nil_r. auto.
Qed.

Lemma summarize_text_status text (max_chunk : Z) w :
  let '(r, w') := summarize_text svc text record_status max_chunk w in
  status w' =
    status w ++ match r with
                | Ok _ => [MSG_SUMMARIZING; MSG_FORMATTING; MSG_COMPLETE]
                | Raise _ => [MSG_SUMMARIZING]
                end.
Proof.
  rewrite summarize_text_cases. unfold summarize_outcome.
  destruct (pipeline_load svc) as [[]|e]; [|done].
  destruct (chunks_of text max_chunk) as [chunks|e]; [|done].
  destruct (summarizer svc chunks (runtime w)) as [[?|?] ?]; simpl; [|done].
  by rewrite <- app_assoc.
Qed.

Lemma blank_url_only_warns_aux url_input ui w :
  strip url_input = [] ->
  run_summary svc url_input ui w =
    (Ok tt,
     mkWidgets (transcript_output ui) (summary_output ui)
       (dialogs ui ++ [WarningBox (lit "Input Error")
                                  (lit "Please enter a valid YouTube URL.")]),
     w).
Proof. intros H. unfold run_summary. by rewrite H. Qed.

(** X18: a URL field that is empty or holds only whitespace gets one
    warning box and nothing else: no status text, no service call, no
    change of the output fields. *)
Theorem blank_url_only_warns url_input ui w :
  strip url_input = [] ->
  run_summary svc url_input ui w =
    (Ok tt,
     mkWidgets (transcript_output ui) (summary_output ui)
       (dialogs ui ++ [WarningBox (lit "Input Error")
                                  (lit "Please enter a valid YouTube URL.")]),
     w).
Proof. apply blank_url_only_warns_aux. Qed.

(** X19: [run_summary] lets no [Exception] escape. When it returns for a
    non-blank URL, the label ends on the text of [MSG_DONE] with no new
    dialog, or on the text of [MSG_FAILED] with exactly one new critical
    box holding the message of an [Exception]. Only what is not an
    [Exception] (a keyboard interrupt, a system exit) passes through. *)
Theorem run_summary_catches_exceptions url_input ui w :
  let '(r, ui', w') := run_summary svc url_input ui w in
  match r with
  | Raise e => is_Exception e = false
  | Ok _ =>
      (strip url_input = [] /\ w' = w)
      \/ (last (status w') = Some (label_text MSG_DONE) /\
          dialogs ui' = dialogs ui)
      \/ (last (status w') = Some (label_text MSG_FAILED) /\
          exists e, is_Exception e = true /\
                    dialogs ui' =
                      dialogs ui ++ [CriticalBox (lit "Error") (exn_message svc e)])
  end.
Proof.
  destruct (truthy (strip url_input)) eqn:Hurl.
  2: { destruct (strip url_input) eqn:E; [|done].
       rewrite (blank_url_only_warns_aux url_input ui w E). by left. }
  rewrite run_summary_cases by done. cbv zeta.
  assert (Hfail : forall e ui0 w0,
            let '(r, ui', w') := show_failure svc e ui0 w0 in
            dialogs ui0 = dialogs ui ->
            match r with
            | Raise e => is_Exception e = false
            | Ok _ =>
                (strip url_input = [] /\ w' = w)
                \/ (last (status w') = Some (label_text MSG_DONE) /\
                    dialogs ui' = dialogs ui)
                \/ (last (status w') = Some (label_text MSG_FAILED) /\
                    exists e, is_Exception e = true /\
                              dialogs ui' =
                                dialogs ui ++
                                [CriticalBox (lit "Error") (exn_message svc e)])
            end).
  { intros e ui0 w0. unfold show_failure.
    destruct (is_Exception e) eqn:He; [|done].
    intros Hd. right. right. split.
    - rewrite app_update_status_run. unfold told. cbn [status]. apply last_snoc.
    - exists e. cbn [dialogs]. by rewrite Hd. }
  destruct (get_transcript svc (strip url_input) record_status _)
    as [[transcript|e] w1].
  2: { specialize (Hfail e ui (decorate label_text
                                 (length (status (told MSG_FETCHING w))) w1)).
       destruct (show_failure svc e ui _) as [[r ui'] w']. by apply Hfail. }
  destruct (summarize_text svc transcript record_status DEFAULT_MAX_CHUNK _)
    as [[summary|e] w2].
  - right. left. split; [|done]. unfold told at 1. cbn [status]. apply last_snoc.
  - match goal with
    | |- context [show_failure svc e ?u ?x] =>
        specialize (Hfail e u x); destruct (show_failure svc e u x) as [[r ui'] w']
    end.
    by apply Hfail.
Qed.

(** X20: what the output fields show after [run_summary], in terms of
    the two stages run on their own. If the acquisition raises, both
    fields keep their old content. Otherwise the transcript field shows
    the transcript; the summary field shows the summary of that transcript
    if the summarizer returns, and keeps its old content if it raises, so
    that a failed summarization leaves a new transcript beside the
    summary of an earlier run. *)
Theorem run_summary_outputs url_input ui w :
  truthy (strip url_input) = true ->
  let '(_, ui', _) := run_summary svc url_input ui w in
  match fst (get_transcript svc (strip url_input) record_status w) with
  | Raise _ =>
      transcript_output ui' = transcript_output ui /\
      summary_output ui' = summary_output ui
  | Ok transcript =>
      transcript_output ui' = transcript /\
      summary_output ui' =
        match fst (summarize_text svc transcript record_status
                                  DEFAULT_MAX_CHUNK w) with
        | Ok summary => summary
        | Raise _ => summary_output ui
        end
  end.
Proof.
  intros Hurl. rewrite run_summary_cases by done. cbv zeta.
  pose proof (get_transcript_result_frame (strip url_input)
                (told MSG_FETCHING w) w eq_refl) as Hr.
  pose proof (get_transcript_keeps_runtime (strip url_input)
                (told MSG_FETCHING w)) as Hrt.
  destruct (get_transcript svc (strip url_input) record_status
              (told MSG_FETCHING w)) as [r1 w1].
  cbn [fst snd] in Hr, Hrt. rewrite <- Hr.
  destruct r1 as [transcript|e].
  2: { unfold show_failure. by destruct (is_Exception e). }
  set (w1' := told MSG_SUMMARIZING_NEXT _).
  pose proof (summarize_result_frame transcript DEFAULT_MAX_CHUNK w1' w Hrt) as Hs.
  rewrite <- Hs.
  destruct (summarize_text svc transcript record_status DEFAULT_MAX_CHUNK w1')
    as [[summary|e] w2]; [done|].
  unfold show_failure. by destruct (is_Exception e).
Qed.

(** The texts the label may run through between the click and a return of
    [run_summary], without their common prefix. *)
Definition label_history (evs : list str) : Prop :=
  (exists acq,
      (acq = [MSG_API] \/ acq = [MSG_FALLBACK; MSG_WHISPER]) /\
      (evs = MSG_FETCHING :: acq ++
               [MSG_SUMMARIZING_NEXT; MSG_SUMMARIZING; MSG_FORMATTING;
                MSG_COMPLETE; MSG_DONE]
       \/ evs = MSG_FETCHING :: acq ++
               [MSG_SUMMARIZING_NEXT; MSG_SUMMARIZING; MSG_FAILED]))
  \/ (exists acq,
        (acq = [] \/ acq = [MSG_FALLBACK]) /\
        evs = MSG_FETCHING :: acq ++ [MSG_FAILED]).

Local Ltac list_norm :=
  repeat progress (rewrite <- ?app_assoc, ?List.map_app; cbn [List.map app]).

(** X21: every text the label shows during [run_summary] is a pipeline
    message behind the prefix [STATUS_PREFIX], and when the method returns
    for a non-blank URL the sequence of messages is one of: fetching, the
    acquisition messages, summarizing, the three summarizer messages,
    done; or the same cut short by a failure and closed by failed. *)
Theorem run_summary_label_history url_input ui w :
  truthy (strip url_input) = true ->
  let '(r, _, w') := run_summary svc url_input ui w in
  exists evs,
    status w' = status w ++ List.map label_text evs /\
    match r with
    | Ok _ => label_history evs
    | Raise _ => True
    end.
Proof.
  intros Hurl. rewrite run_summary_cases by done. cbv zeta.
  pose proof (get_transcript_status (strip url_input) (told MSG_FETCHING w)) as Ha.
  destruct (get_transcript svc (strip url_input) record_status
              (told MSG_FETCHING w)) as [r1 w1].
  destruct Ha as (acq & Ea & Hacq).
  pose proof (status_decorate label_text _ _ _ Ea) as E1.
  set (w1d := decorate label_text _ w1) in *.
  unfold told at 1 in E1. cbn [status] in E1.
  destruct r1 as [transcript|e].
  2: { unfold show_failure. destruct (is_Exception e).
       - exists (MSG_FETCHING :: acq ++ [MSG_FAILED]). split.
         + rewrite app_update_status_run. unfold told. cbn [snd status].
           rewrite E1. by list_norm.
         + right. eauto.
       - exists (MSG_FETCHING :: acq). split; [|done].
         rewrite E1. by list_norm. }
  set (w1' := told MSG_SUMMARIZING_NEXT w1d).
  assert (E1' : status w1' =
                status w ++ List.map label_text
                              (MSG_FETCHING :: acq ++ [MSG_SUMMARIZING_NEXT])).
  { unfold w1', told. cbn [status].
    rewrite E1. by list_norm. }
  pose proof (summarize_text_status transcript DEFAULT_MAX_CHUNK w1') as Hs.
  destruct (summarize_text svc transcript record_status DEFAULT_MAX_CHUNK w1')
    as [r2 w2].
  pose proof (status_decorate label_text _ _ _ Hs) as E2.
  set (w2d := decorate label_text _ w2) in *.
  rewrite E1' in E2.
  destruct r2 as [summary|e].
  - exists (MSG_FETCHING :: acq ++
              [MSG_SUMMARIZING_NEXT; MSG_SUMMARIZING; MSG_FORMATTING;
               MSG_COMPLETE; MSG_DONE]). split.
    + unfold told at 1. cbn [status]. rewrite E2. by list_norm.
    + left. eauto.
  - unfold show_failure. destruct (is_Exception e).
    + exists (MSG_FETCHING :: acq ++
                [MSG_SUMMARIZING_NEXT; MSG_SUMMARIZING; MSG_FAILED]). split.
      * rewrite app_update_status_run. unfold told. cbn [snd status].
        rewrite E2. by list_norm.
      * left. eauto.
    + exists (MSG_FETCHING :: acq ++ [MSG_SUMMARIZING_NEXT; MSG_SUMMARIZING]).
      split; [|done].
      rewrite E2. by list_norm.
Qed.

End WindowProperties.

Module WindowScenario.

Import Demo Scenario SummaryScenario.

(** The window as [__init__] leaves it: empty fields, no dialog. *)
Definition fresh : Widgets := mkWidgets [] [] [].

(** A window that still shows the results of an earlier run. *)
Definition used : Widgets :=
  mkWidgets (lit "old transcript") (lit "old summary") [].

(** Captions are served, but the model cannot be loaded. *)
Definition model_missing : Services :=
  mkServices split_url split_query
             (fun _ => Ok [mkSegment (lit "hello") 0 1500;
                           mkSegment (lit "world") 1500 900])
             (fun _ => lit "error")
             (fun _ files => (Ok tt, files)) (fun _ _ => Ok [])
             (Raise (ServiceError (lit "OSError")))
             (fun chunks rt => (Ok chunks, rt)).

End WindowScenario.

Section WindowWitnesses.

Import Demo Scenario SummaryScenario WindowScenario.

Lemma blank_url_only_warns_witness :
  run_summary (services captioned) (lit "   ") fresh empty_world =
    (Ok tt,
     mkWidgets [] []
       [WarningBox (lit "Input Error") (lit "Please enter a valid YouTube URL.")],
     empty_world).
Proof.
  apply (blank_url_only_warns (services captioned) (lit "   ") fresh empty_world).
  vm_compute. reflexivity.
Defined.

Lemma run_summary_outputs_witness :
  let '(_, ui', _) := run_summary model_missing (lit " https://youtu.be/abc ")
                                  used empty_world in
  transcript_output ui' = lit "hello world" /\
  summary_output ui' = lit "old summary".
Proof.
  pose proof (run_summary_outputs model_missing (lit " https://youtu.be/abc ")
                used empty_world eq_refl) as H.
  destruct (run_summary model_missing (lit " https://youtu.be/abc ") used
              empty_world) as [[r ui'] w'].
  vm_compute in H. exact H.
Defined.

Lemma run_summary_label_history_witness :
  exists evs,
    status (snd (run_summary (services captioned) short_url fresh empty_world)) =
      List.map label_text evs /\
    label_history evs.
Proof.
  pose proof (run_summary_label_history (services captioned) short_url fresh
                empty_world eq_refl) as H.
  destruct (run_summary (services captioned) short_url fresh empty_world)
    as [[r ui'] w'] eqn:E.
  assert (Hr : r = Ok tt) by (vm_compute in E; by injection E as <- _ _).
  subst r. exact H.
Defined.

End WindowWitnesses.

(** ** [urllib.parse] on URL strings

    [urlparse] and [parse_qs] as CPython 3.11 defines them for [str]
    arguments with the default options, so that the identifier can be
    followed from the URL string. Three library checks stay abstract, as
    parameters: the validation of a bracketed host ([_check_bracketed_netloc],
    through [ipaddress]), the NFKC check of a non-ASCII network location
    ([_checknetloc], through [unicodedata]) and the decoding of percent
    escapes ([unquote] on a string that contains [%]). *)

Module Urllib.

Definition COLON : char := 58.
Definition SLASH : char := 47.
Definition QUESTION : char := 63.
Definition HASH : char := 35.
Definition SEMICOLON : char := 59.
Definition AMPERSAND : char := 38.
Definition EQUALS : char := 61.
Definition PERCENT : char := 37.
Definition PLUS : char := 43.
Definition LBRACKET : char := 91.
Definition RBRACKET : char := 93.

Definition is_char (c : char) : char -> bool := N.eqb c.

(** [c in s] for a single character. *)
Definition has_char (c : char) (s : str) : bool := existsb (is_char c) s.

(** The part of [s] before the first character satisfying [p], and the
    rest from that character on. *)
Fixpoint until (p : char -> bool) (s : str) : str * str :=
  match s with
  | [] => ([], [])
  | c :: s' =>
      if p c then ([], s)
      else let (a, b) := until p s' in (c :: a, b)
  end.

(** [s.split(c, 1)] when [c in s]: the parts before and after the first
    [c]. *)
Definition split_once (c : char) (s : str) : str * str :=
  let (a, b) := until (is_char c) s in (a, drop 1 b).

(** [_WHATWG_C0_CONTROL_OR_SPACE] *)
Definition is_c0_or_space (c : char) : bool := c <=? 32.
(** [_UNSAFE_URL_BYTES_TO_REMOVE]: tab, carriage return, newline. *)
Definition is_unsafe (c : char) : bool := (c =? 9) || (c =? 13) || (c =? 10).
Definition is_ascii (c : char) : bool := c <? 128.
Definition is_upper (c : char) : bool := (65 <=? c) && (c <=? 90).
Definition is_ascii_alpha (c : char) : bool :=
  is_upper c || ((97 <=? c) && (c <=? 122)).
Definition is_digit (c : char) : bool := (48 <=? c) && (c <=? 57).
(** [scheme_chars] *)
Definition is_scheme_char (c : char) : bool :=
  is_ascii_alpha c || is_digit c || (c =? 43) || (c =? 45) || (c =? 46).
(** [str.lower] on scheme characters. *)
Definition lower (c : char) : char := if is_upper c then c + 32 else c.

(** [uses_params] *)
Definition uses_params : list str :=
  [[]; lit "ftp"; lit "hdl"; lit "prospero"; lit "http"; lit "imap";
   lit "https"; lit "shttp"; lit "rtsp"; lit "rtspu"; lit "sip"; lit "sips";
   lit "mms"; lit "sftp"; lit "tel"].

(** The scheme and what follows its colon, when [url] starts with a
    scheme. *)
Definition split_scheme (url : str) : str * str :=
  let (pre, rest) := until (is_char COLON) url in
  match pre, rest with
  | c :: _, _ :: after =>
      if is_ascii c && is_ascii_alpha c && forallb is_scheme_char pre
      then (List.map lower pre, after)
      else ([], url)
  | _, _ => ([], url)
  end.

(** [_splitparams(url)[0]]: the path without the parameters of its last
    segment. *)
Definition without_params (url : str) : str :=
  let (seg_rev, dir_rev) := until (is_char SLASH) (rev url) in
  rev dir_rev ++ fst (until (is_char SEMICOLON) (rev seg_rev)).

Section Parser.

Variable bracketed_netloc_error : str -> option str.
Variable nfkc_netloc_error : str -> option str.
Variable unquote_escapes : str -> str.

(** [urlparse(url)], keeping the network location, the path and the
    query. *)
Definition urlparse (url : str) : result ParseResult :=
  let url := dropwhile is_c0_or_space url in
  let url := List.filter (fun c => negb (is_unsafe c)) url in
  let (scheme, url) := split_scheme url in
  let (nl, url) := if starts_with [SLASH; SLASH] url
                   then until (fun c => is_char SLASH c || is_char QUESTION c
                                        || is_char HASH c) (drop 2 url)
                   else ([], url) in
  let bracket_error :=
    if xorb (has_char LBRACKET nl) (has_char RBRACKET nl)
    then Some (lit "Invalid IPv6 URL")
    else if has_char LBRACKET nl && has_char RBRACKET nl
         then bracketed_netloc_error nl
         else None in
  match bracket_error with
  | Some msg => Raise (ValueError msg)
  | None =>
      let url := if has_char HASH url then fst (split_once HASH url) else url in
      let (url, qs) := if has_char QUESTION url then split_once QUESTION url
                       else (url, []) in
      let netloc_error :=
        if negb (truthy nl) || forallb is_ascii nl then None
        else nfkc_netloc_error nl in
      match netloc_error with
      | Some msg => Raise (ValueError msg)
      | None =>
          let url := if bool_decide (scheme ∈ uses_params) && has_char SEMICOLON url
                     then without_params url else url in
          Ok (mkParse nl url qs)
      end
  end.

(** [unquote(s)] *)
Definition unquote (s : str) : str :=
  if has_char PERCENT s then unquote_escapes s else s.

(** [s.replace('+', ' ')] *)
Definition plus_to_space (s : str) : str :=
  List.map (fun c => if c =? PLUS then SPACE else c) s.

(** [s.split(sep)] for a single character. *)
Fixpoint split_on (sep : char) (cur : str) (s : str) : list str :=
  match s with
  | [] => [rev cur]
  | c :: s' =>
      if c =? sep then rev cur :: split_on sep [] s'
      else split_on sep (c :: cur) s'
  end.

(** One field of the query: nothing for an empty field, a field without
    [=] or a blank value. *)
Definition field_pair (name_value : str) : list (str * str) :=
  if has_char EQUALS name_value
  then let (name, value) := split_once EQUALS name_value in
       if truthy value
       then [(unquote (plus_to_space name), unquote (plus_to_space value))]
       else []
  else [].

(** [parse_qsl(qs)] *)
Definition parse_qsl (qs : str) : list (str * str) :=
  if truthy qs then flat_map field_pair (split_on AMPERSAND [] qs) else [].

Definition add_value (m : gmap str (list str)) (nv : str * str)
  : gmap str (list str) :=
  <[nv.1 := default [] (m !! nv.1) ++ [nv.2]]> m.

(** [parse_qs(qs)] *)
Definition parse_qs (qs : str) : gmap str (list str) :=
  fold_left add_value (parse_qsl qs) ∅.

(** The services of [base] with the two URL functions in place. *)
Definition services (base : Services) : Services :=
  mkServices urlparse parse_qs (transcript_api base) (exn_message base)
             (ydl_download base) (whisper_transcribe base) (pipeline_load base)
             (summarizer base).

End Parser.

(** Checks that accept everything and an unquote that leaves escapes
    alone, for URLs that never reach them. *)
Definition plain_services (base : Services) : Services :=
  services (fun _ => None) (fun _ => None) (fun s => s) base.

End Urllib.

(** ** The identifier of an https URL *)

Definition HTTPS : str := Eval vm_compute in lit "https://".
Definition SHORT_DOMAIN : str := Eval vm_compute in lit "youtu.be".
Definition LONG_DOMAIN : str := Eval vm_compute in lit "youtube.com".
Definition V_EQUALS : str := Eval vm_compute in lit "v=".

(** The characters a host, a path, a query and a parameter value may
    consist of for the URL to split where it is put together. *)
Definition host_char (c : char) : bool :=
  (32 <? c) && (c <? 128)
  && negb (existsb (N.eqb c) [Urllib.SLASH; Urllib.QUESTION; Urllib.HASH;
                              Urllib.LBRACKET; Urllib.RBRACKET]).
Definition path_char (c : char) : bool :=
  negb (Urllib.is_unsafe c)
  && negb (existsb (N.eqb c) [Urllib.QUESTION; Urllib.HASH; Urllib.SEMICOLON]).
Definition query_char (c : char) : bool :=
  negb (Urllib.is_unsafe c) && negb (c =? Urllib.HASH).
Definition value_char (c : char) : bool :=
  negb (Urllib.is_unsafe c)
  && negb (existsb (N.eqb c) [Urllib.HASH; Urllib.AMPERSAND; Urllib.EQUALS;
                              Urllib.PERCENT; Urllib.PLUS]).

Definition clean_host (host : str) : bool := forallb host_char host.
(** A path is empty or starts with a slash. *)
Definition clean_path (path : str) : bool :=
  match path with
  | [] => true
  | c :: _ => c =? Urllib.SLASH
  end && forallb path_char path.
Definition clean_query (q : option str) : bool :=
  match q with
  | Some qs => forallb query_char qs
  | None => true
  end.

(** [https://<host><path>] or [https://<host><path>?<query>] *)
Definition https_url (host path : str) (q : option str) : str :=
  HTTPS ++ host ++ path ++
  match q with
  | Some qs => Urllib.QUESTION :: qs
  | None => []
  end.

Section UrlStrings.

Import Urllib.

Implicit Types (s a b host path : str) (p : char -> bool).

Lemma forallb_weaken p (p' : char -> bool) s :
  (forall c, p c = true -> p' c = true) ->
  forallb p s = true -> forallb p' s = true.
Proof.
  intros Himp. induction s as [|c s IH]; simpl; [done|].
  intros [Hc Hs]%andb_true_iff.
  apply andb_true_iff. split; [by apply Himp | by apply IH].
Qed.

Lemma until_clean p a b :
  forallb (fun c => negb (p c)) a = true ->
  match b with [] => True | c :: _ => p c = true end ->
  until p (a ++ b) = (a, b).
Proof.
  intros Ha Hb. induction a as [|c a IH]; simpl in *.
  - destruct b as [|c b]; [done|]. simpl. by rewrite Hb.
  - apply andb_true_iff in Ha as [Hc Ha]. apply negb_true_iff in Hc.
    by rewrite Hc, IH.
Qed.

Lemma filter_clean p s : forallb p s = true -> List.filter p s = s.
Proof.
  induction s as [|c s IH]; simpl; [done|].
  intros [Hc Hs]%andb_true_iff. by rewrite Hc, IH.
Qed.

Lemma has_char_clean (x : char) s :
  forallb (fun c => negb (is_char x c)) s = true -> has_char x s = false.
Proof.
  unfold has_char. induction s as [|c s IH]; simpl; [done|].
  intros [Hc Hs]%andb_true_iff. apply negb_true_iff in Hc. by rewrite Hc, IH.
Qed.

Lemma has_char_app (x : char) a b :
  has_char x (a ++ b) = has_char x a || has_char x b.
Proof. apply existsb_app. Qed.

Lemma https_prefix_kept (t : str) :
  dropwhile is_c0_or_space (HTTPS ++ t) = HTTPS ++ t
  /\ List.filter (fun c => negb (is_unsafe c)) (HTTPS ++ t) =
     HTTPS ++ List.filter (fun c => negb (is_unsafe c)) t
  /\ split_scheme (HTTPS ++ t) = (lit "https", [SLASH; SLASH] ++ t).
Proof. done. Qed.

Lemma host_char_facts host :
  clean_host host = true ->
  forallb (fun c => negb (is_unsafe c)) host = true
  /\ forallb (fun c => negb (is_char SLASH c || is_char QUESTION c
                            || is_char HASH c)) host = true
  /\ has_char LBRACKET host = false
  /\ has_char RBRACKET host = false
  /\ forallb is_ascii host = true.
Proof.
  unfold clean_host. intros H.
  assert (Hc : forall c, host_char c = true ->
             negb (is_unsafe c) = true
             /\ negb (is_char SLASH c || is_char QUESTION c || is_char HASH c) = true
             /\ negb (is_char LBRACKET c) = true
             /\ negb (is_char RBRACKET c) = true
             /\ is_ascii c = true).
  { intros c Hh. unfold host_char in Hh.
    apply andb_true_iff in Hh as [[Hlo%N.ltb_lt Hhi]%andb_true_iff Hex].
    apply negb_true_iff in Hex. cbn [existsb] in Hex.
    apply orb_false_iff in Hex as [H1 Hex].
    apply orb_false_iff in Hex as [H2 Hex].
    apply orb_false_iff in Hex as [H3 Hex].
    apply orb_false_iff in Hex as [H4 Hex].
    apply orb_false_iff in Hex as [H5 _].
    unfold is_unsafe, is_char, is_ascii.
    rewrite !(N.eqb_sym _ c), H1, H2, H3, H4, H5, Hhi.
    replace (c =? 9) with false by (symmetry; apply N.eqb_neq; lia).
    replace (c =? 13) with false by (symmetry; apply N.eqb_neq; lia).
    replace (c =? 10) with false by (symmetry; apply N.eqb_neq; lia).
    done. }
  repeat split.
  - eapply forallb_weaken; [|exact H]. intros c Hh. by apply Hc.
  - eapply forallb_weaken; [|exact H]. intros c Hh. by apply Hc.
  - apply has_char_clean. eapply forallb_weaken; [|exact H].
    intros c Hh. by apply Hc.
  - apply has_char_clean. eapply forallb_weaken; [|exact H].
    intros c Hh. by apply Hc.
  - eapply forallb_weaken; [|exact H]. intros c Hh. by apply Hc.
Qed.

Lemma has_char_false_forallb (x : char) s :
  has_char x s = false -> forallb (fun c => negb (is_char x c)) s = true.
Proof.
  unfold has_char. induction s as [|c s IH]; simpl; [done|].
  intros [Hc Hs]%orb_false_iff. by rewrite Hc, IH.
Qed.

Lemma path_char_facts path :
  clean_path path = true ->
  forallb (fun c => negb (is_unsafe c)) path = true
  /\ has_char QUESTION path = false
  /\ has_char HASH path = false
  /\ has_char SEMICOLON path = false
  /\ match path with
     | [] => True
     | c :: _ => is_char SLASH c || is_char QUESTION c || is_char HASH c = true
     end.
Proof.
  unfold clean_path. intros [Hhead H]%andb_true_iff.
  assert (Hc : forall c, path_char c = true ->
             negb (is_unsafe c) = true
             /\ negb (is_char QUESTION c) = true
             /\ negb (is_char HASH c) = true
             /\ negb (is_char SEMICOLON c) = true).
  { intros c Hp. unfold path_char in Hp.
    apply andb_true_iff in Hp as [Hu Hex].
    apply negb_true_iff in Hex. cbn [existsb] in Hex.
    apply orb_false_iff in Hex as [H1 Hex].
    apply orb_false_iff in Hex as [H2 Hex].
    apply orb_false_iff in Hex as [H3 _].
    unfold is_char. by rewrite !(N.eqb_sym _ c), H1, H2, H3, Hu. }
  repeat split.
  - eapply forallb_weaken; [|exact H]. intros c Hp. by apply Hc.
  - apply has_char_clean. eapply forallb_weaken; [|exact H].
    intros c Hp. by apply Hc.
  - apply has_char_clean. eapply forallb_weaken; [|exact H].
    intros c Hp. by apply Hc.
  - apply has_char_clean. eapply forallb_weaken; [|exact H].
    intros c Hp. by apply Hc.
  - destruct path as [|c path]; [done|]. unfold is_char.
    by rewrite (N.eqb_sym SLASH c), Hhead.
Qed.

Lemma query_char_facts (qs : str) :
  forallb query_char qs = true ->
  forallb (fun c => negb (is_unsafe c)) qs = true /\ has_char HASH qs = false.
Proof.
  intros H. split.
  - eapply forallb_weaken; [|exact H]. intros c Hq. unfold query_char in Hq.
    by apply andb_true_iff in Hq as [? _].
  - apply has_char_clean. eapply forallb_weaken; [|exact H].
    intros c Hq. unfold query_char in Hq.
    apply andb_true_iff in Hq as [_ Hq]. unfold is_char.
    by rewrite N.eqb_sym.
Qed.

(** On an https URL put together from a clean host, path and query,
    [urlparse] gives these three parts back. *)
Lemma urlparse_https (bk nf : str -> option str) host path (q : option str) :
  clean_host host = true ->
  clean_path path = true ->
  clean_query q = true ->
  urlparse bk nf (https_url host path q) =
    Ok (mkParse host path (default [] q)).
Proof.
  intros Hh Hp Hq.
  destruct (host_char_facts host Hh) as (Hh1 & Hh2 & Hh3 & Hh4 & Hh5).
  destruct (path_char_facts path Hp) as (Hp1 & Hp2 & Hp3 & Hp4 & Hp5).
  set (qpart := match q with Some qs => QUESTION :: qs | None => [] end).
  assert (Hq1 : forallb (fun c => negb (is_unsafe c)) qpart = true
                /\ has_char HASH qpart = false).
  { unfold qpart. destruct q as [qs|]; [|done].
    destruct (query_char_facts qs Hq) as [Hu Hn]. simpl. by rewrite Hu, Hn. }
  destruct Hq1 as [Hq1 Hq2].
  set (t := host ++ path ++ qpart).
  assert (Ht : forallb (fun c => negb (is_unsafe c)) t = true)
    by (unfold t; by rewrite !forallb_app, Hh1, Hp1, Hq1).
  destruct (https_prefix_kept t) as (E1 & E2 & E3).
  rewrite (filter_clean _ t Ht) in E2.
  unfold urlparse, https_url. fold qpart. fold t.
  rewrite E1, E2, E3.
  change (starts_with [SLASH; SLASH] ([SLASH; SLASH] ++ t)) with true.
  change (drop 2 ([SLASH; SLASH] ++ t)) with t.
  cbv iota. unfold t.
  rewrite (until_clean _ host (path ++ qpart) Hh2).
  2: { destruct path as [|c path]; [|exact Hp5].
       unfold qpart. by destruct q. }
  rewrite Hh3, Hh4. cbn [xorb andb].
  rewrite (has_char_app HASH), Hp3, Hq2. cbn [orb].
  rewrite Hh5, orb_true_r.
  destruct q as [qs|]; unfold qpart.
  - rewrite (has_char_app QUESTION), Hp2.
    change (has_char QUESTION (QUESTION :: qs)) with true. cbn [orb].
    unfold split_once.
    rewrite (until_clean (is_char QUESTION) path (QUESTION :: qs));
      [|by apply has_char_false_forallb|done].
    cbn [drop]. by rewrite Hp4, andb_false_r.
  - rewrite app_nil_r, Hp2. by rewrite Hp4, andb_false_r.
Qed.

(** A parameter value that [parse_qs] hands back as it stands. *)
Definition clean_value (id : str) : bool := truthy id && forallb value_char id.

Lemma value_char_facts (id : str) :
  forallb value_char id = true ->
  forallb (fun c => negb (c =? AMPERSAND)) id = true
  /\ has_char PERCENT id = false
  /\ plus_to_space id = id.
Proof.
  intros H.
  assert (Hc : forall c, value_char c = true ->
             (c =? AMPERSAND) = false /\ (c =? PERCENT) = false
             /\ (c =? PLUS) = false).
  { intros c Hv. unfold value_char in Hv.
    apply andb_true_iff in Hv as [_ Hex].
    apply negb_true_iff in Hex. cbn [existsb] in Hex.
    apply orb_false_iff in Hex as [_ Hex].
    apply orb_false_iff in Hex as [H2 Hex].
    apply orb_false_iff in Hex as [_ Hex].
    apply orb_false_iff in Hex as [H4 Hex].
    by apply orb_false_iff in Hex as [H5 _]. }
  split; [|split].
  - eapply forallb_weaken; [|exact H]. intros c Hv.
    destruct (Hc c Hv) as (-> & _). done.
  - apply has_char_clean. eapply forallb_weaken; [|exact H]. intros c Hv.
    destruct (Hc c Hv) as (_ & Hp & _). unfold is_char.
    by rewrite N.eqb_sym, Hp.
  - unfold plus_to_space. induction id as [|c id IH]; [done|].
    simpl in H. apply andb_true_iff in H as [Hv H].
    destruct (Hc c Hv) as (_ & _ & Hplus). simpl. by rewrite Hplus, IH.
Qed.

Lemma split_on_end (sep : char) (cur : str) a :
  forallb (fun c => negb (c =? sep)) a = true ->
  split_on sep cur a = [rev cur ++ a].
Proof.
  revert cur. induction a as [|c a IH]; intros cur H; simpl in *.
  - by rewrite app_nil_r.
  - apply andb_true_iff in H as [Hc H]. apply negb_true_iff in Hc.
    rewrite Hc, IH by done. simpl. by rewrite <- app_assoc.
Qed.

Lemma split_on_sep (sep : char) (cur : str) a b :
  forallb (fun c => negb (c =? sep)) a = true ->
  split_on sep cur (a ++ sep :: b) = (rev cur ++ a) :: split_on sep [] b.
Proof.
  revert cur. induction a as [|c a IH]; intros cur H; simpl in *.
  - by rewrite N.eqb_refl, app_nil_r.
  - apply andb_true_iff in H as [Hc H]. apply negb_true_iff in Hc.
    rewrite Hc, IH by done. simpl. by rewrite <- app_assoc.
Qed.

Section Query.

Variable unquote_escapes : str -> str.

Lemma field_pair_v (id : str) :
  clean_value id = true ->
  field_pair unquote_escapes (V_EQUALS ++ id) = [(lit "v", id)].
Proof.
  unfold clean_value. intros [Hne Hv]%andb_true_iff.
  destruct (value_char_facts id Hv) as (_ & Hpct & Hplus).
  unfold field_pair.
  change (has_char EQUALS (V_EQUALS ++ id)) with true. cbv iota.
  change (split_once EQUALS (V_EQUALS ++ id)) with (lit "v", id). cbv iota.
  rewrite Hne, Hplus. unfold unquote at 2. by rewrite Hpct.
Qed.

Lemma parse_qsl_v (id more : str) :
  clean_value id = true ->
  more = [] \/ head more = Some AMPERSAND ->
  exists rest,
    parse_qsl unquote_escapes (V_EQUALS ++ id ++ more) = (lit "v", id) :: rest.
Proof.
  intros Hid Hmore. pose proof (field_pair_v id Hid) as Hf.
  unfold clean_value in Hid. apply andb_true_iff in Hid as [_ Hv].
  destruct (value_char_facts id Hv) as (Hamp & _ & _).
  assert (Hclean : forallb (fun c => negb (c =? AMPERSAND)) (V_EQUALS ++ id) = true)
    by (by rewrite forallb_app, Hamp).
  unfold parse_qsl. change (truthy (V_EQUALS ++ id ++ more)) with true. cbv iota.
  rewrite app_assoc.
  destruct Hmore as [-> | Hhead].
  - rewrite app_nil_r, (split_on_end _ _ _ Hclean). cbn [rev app flat_map].
    rewrite Hf. by eexists.
  - destruct more as [|c more]; [done|]. injection Hhead as ->.
    rewrite (split_on_sep _ _ _ _ Hclean). cbn [rev app flat_map].
    rewrite Hf. by eexists.
Qed.

Lemma add_values_keep_first (pairs : list (str * str))
    (m : gmap str (list str)) (k x : str) (xs : list str) :
  m !! k = Some (x :: xs) ->
  exists xs', fold_left add_value pairs m !! k = Some (x :: xs').
Proof.
  revert m xs. induction pairs as [|[n v] pairs IH]; intros m xs Hm; simpl.
  - eauto.
  - destruct (decide (n = k)) as [-> | Hne].
    + apply (IH _ (xs ++ [v])). unfold add_value. simpl.
      by rewrite lookup_insert_eq, Hm.
    + apply (IH _ xs). unfold add_value. simpl.
      by rewrite lookup_insert_ne.
Qed.

Lemma add_values_nonempty (pairs : list (str * str)) (m : gmap str (list str)) :
  (forall k, m !! k <> Some []) ->
  forall k, fold_left add_value pairs m !! k <> Some [].
Proof.
  revert m. induction pairs as [|[n v] pairs IH]; intros m Hm; simpl; [done|].
  apply IH. intros k. unfold add_value. simpl.
  destruct (decide (n = k)) as [-> | Hne].
  - rewrite lookup_insert_eq. intros [= E]. by destruct (default [] (m !! k)).
  - by rewrite lookup_insert_ne.
Qed.

(** [parse_qs] never lists a parameter without a value. *)
Lemma parse_qs_nonempty (qs k : str) :
  parse_qs unquote_escapes qs !! k <> Some [].
Proof. apply add_values_nonempty. intros k'. by rewrite lookup_empty. Qed.

(** The first value of [v] in a query that starts with [v=<id>]. *)
Lemma parse_qs_v_first (id more : str) :
  clean_value id = true ->
  more = [] \/ head more = Some AMPERSAND ->
  exists vs,
    parse_qs unquote_escapes (V_EQUALS ++ id ++ more) !! lit "v" = Some (id :: vs).
Proof.
  intros Hid Hmore. destruct (parse_qsl_v id more Hid Hmore) as (rest & E).
  unfold parse_qs. rewrite E. cbn [fold_left].
  apply (add_values_keep_first _ _ _ _ []).
  unfold add_value. cbn [fst snd]. by rewrite lookup_insert_eq, lookup_empty.
Qed.

End Query.

End UrlStrings.

Section UrlClaims.

Import Demo Scenario.

Implicit Types (host pth id : str) (q : option str).

(** C5, as stated, fails: the two domains are recognised by a
    case-sensitive substring test on the network location. A URL on a
    foreign host whose name contains [youtu.be] is taken for the short form
    and gets an identifier and a transcript, and a short-domain URL written
    in upper case is refused. *)
Lemma foreign_host_gets_an_id :
  let svc := Urllib.plain_services (services captioned) in
  (get_video_id svc (lit "https://notyoutu.be.example.org/abc") =
     Ok (Some (lit "abc"))
   /\ fst (get_transcript_youtube svc (lit "https://notyoutu.be.example.org/abc")
                                  empty_world) = Ok (Some (lit "hello world")))
  /\ (get_video_id svc (lit "https://YOUTU.BE/dQw4w9WgXcQ") = Ok None
      /\ fst (get_transcript_youtube svc (lit "https://YOUTU.BE/dQw4w9WgXcQ")
                                     empty_world) =
         Raise (ValueError (lit "Invalid YouTube URL"))).
Proof. vm_compute. done. Qed.

(** C5, amended: for every URL [https://<host><path>] or
    [https://<host><path>?<query>], with [urlparse] and [parse_qs] as the
    library defines them. If the host contains [youtu.be], the identifier
    is the path without its first character, so [<id>] for the path
    [/<id>]. Otherwise, if the host contains [youtube.com], it is the first
    value of the parameter [v], so [<id>] for a query that starts with
    [v=<id>]. If the host contains neither, or the query has no [v], there
    is no identifier and the fetcher raises
    [ValueError("Invalid YouTube URL")] without calling the API. *)
Theorem url_shapes_by_substring (bk nf : str -> option str) (unq : str -> str)
    (base : Services) host pth q :
  clean_host host = true ->
  clean_path pth = true ->
  clean_query q = true ->
  let svc := Urllib.services bk nf unq base in
  let url := https_url host pth q in
  get_video_id svc url =
    (if contains (lit "youtu.be") host then Ok (Some (drop 1 pth))
     else if contains (lit "youtube.com") host
          then match Urllib.parse_qs unq (default [] q) !! lit "v" with
               | Some (v :: _) => Ok (Some v)
               | _ => Ok None
               end
          else Ok None)
  /\ (contains (lit "youtu.be") host = true ->
      forall id, pth = Urllib.SLASH :: id -> get_video_id svc url = Ok (Some id))
  /\ (contains (lit "youtu.be") host = false ->
      contains (lit "youtube.com") host = true ->
      forall id more,
        q = Some (V_EQUALS ++ id ++ more) ->
        clean_value id = true ->
        more = [] \/ head more = Some Urllib.AMPERSAND ->
        get_video_id svc url = Ok (Some id))
  /\ (contains (lit "youtu.be") host = false ->
      contains (lit "youtube.com") host = false \/
      Urllib.parse_qs unq (default [] q) !! lit "v" = None ->
      forall w, get_transcript_youtube svc url w =
                  (Raise (ValueError (lit "Invalid YouTube URL")), w)).
Proof.
  intros Hh Hp Hq svc url.
  assert (E : get_video_id svc url =
              (if contains (lit "youtu.be") host then Ok (Some (drop 1 pth))
               else if contains (lit "youtube.com") host
                    then match Urllib.parse_qs unq (default [] q) !! lit "v" with
                         | Some (v :: _) => Ok (Some v)
                         | _ => Ok None
                         end
                    else Ok None)).
  { unfold get_video_id, svc, url. cbn [urlparse parse_qs Urllib.services].
    rewrite (urlparse_https bk nf host pth q Hh Hp Hq). cbn [netloc path query].
    destruct (contains (lit "youtu.be") host); [done|].
    destruct (contains (lit "youtube.com") host); [|done].
    pose proof (parse_qs_nonempty unq (default [] q) (lit "v")) as Hne.
    by destruct (Urllib.parse_qs unq (default [] q) !! lit "v") as [[|v vs]|]. }
  split; [exact E|]. split; [|split].
  - intros Hs id ->. by rewrite E, Hs.
  - intros Hs Hl id more -> Hid Hmore. rewrite E, Hs, Hl.
    destruct (parse_qs_v_first unq id more Hid Hmore) as (vs & Hv).
    change (default [] (Some (V_EQUALS ++ id ++ more)))
      with (V_EQUALS ++ id ++ more).
    by rewrite Hv.
  - intros Hs Hno w. rewrite get_transcript_youtube_cases, E, Hs.
    destruct Hno as [-> | ->]; [done|].
    by destruct (contains (lit "youtube.com") host).
Qed.

Lemma url_shapes_by_substring_witness :
  let svc := Urllib.plain_services (services captioned) in
  get_video_id svc (lit "https://youtu.be/dQw4w9WgXcQ") =
    Ok (Some (lit "dQw4w9WgXcQ"))
  /\ get_video_id svc (lit "https://www.youtube.com/watch?v=dQw4w9WgXcQ&x=1") =
       Ok (Some (lit "dQw4w9WgXcQ"))
  /\ get_transcript_youtube svc (lit "https://www.youtube.com/watch?x=1")
                            empty_world =
       (Raise (ValueError (lit "Invalid YouTube URL")), empty_world)
  /\ get_transcript_youtube svc (lit "https://example.com/dQw4w9WgXcQ")
                            empty_world =
       (Raise (ValueError (lit "Invalid YouTube URL")), empty_world).
Proof.
  split; [|split; [|split]].
  - exact (proj1 (proj2 (url_shapes_by_substring (fun _ => None) (fun _ => None)
                           (fun s => s) (services captioned)
                           (lit "youtu.be") (lit "/dQw4w9WgXcQ") None
                           eq_refl eq_refl eq_refl))
             eq_refl (lit "dQw4w9WgXcQ") eq_refl).
  - exact (proj1 (proj2 (proj2 (url_shapes_by_substring (fun _ => None)
                           (fun _ => None) (fun s => s) (services captioned)
                           (lit "www.youtube.com") (lit "/watch")
                           (Some (lit "v=dQw4w9WgXcQ&x=1"))
                           eq_refl eq_refl eq_refl)))
             eq_refl eq_refl (lit "dQw4w9WgXcQ") (lit "&x=1") eq_refl eq_refl
             (or_intror eq_refl)).
  - exact (proj2 (proj2 (proj2 (url_shapes_by_substring (fun _ => None)
                           (fun _ => None) (fun s => s) (services captioned)
                           (lit "www.youtube.com") (lit "/watch")
                           (Some (lit "x=1"))
                           eq_refl eq_refl eq_refl)))
             eq_refl (or_intror eq_refl) empty_world).
  - exact (proj2 (proj2 (proj2 (url_shapes_by_substring (fun _ => None)
                           (fun _ => None) (fun s => s) (services captioned)
                           (lit "example.com") (lit "/dQw4w9WgXcQ") None
                           eq_refl eq_refl eq_refl)))
             eq_refl (or_introl eq_refl) empty_world).
Defined.

End UrlClaims.
